(** * SPT flares against TESS sectors: the coincidence search of the notebook

    A shallow embedding of the notebook that loads the SPT flare catalogue and
    the TESS orbit table, cuts the sector table to the span of the catalogue,
    asks tesscut which sectors saw each flare position, tests the sector
    windows against the flare time and keeps the flares with a match.

    Layout: Python values, errors and the object store; the loader cell; the
    candidate-sector cell; the matching cell; the result cell; the notions
    and the inputs the statements use; then the properties, cell by cell.

    Objects.  The [sectors] column holds references to list objects.
    [iterrows] hands out a copy of a row whose cell refers to the same list,
    so an [append] through the copy is seen by the frame, and an assignment
    to the copy's cell is not.  The store of list objects is a [gmap] from
    addresses to lists; a statement sequence is a function of the store that
    returns the new store and a value or an exception.

    Time stamps.  The notebook compares MJD values (Python floats) with
    [<], [<=], [>=] and aggregates with min and max; no arithmetic is done on
    them.  Every finite float is a rational and the comparisons agree, so a
    time stamp is a [Q] here, compared with [Qle_bool].  A missing value
    (pandas NaN) is [None].  The orbit file is aggregated while its times
    are still ISO texts: [groupby_agg_text] has the cell's "min" and "max"
    on the strings, with the [TypeError] of a column that holds a text
    beside a missing value.  The conversion of an ISO text to its MJD
    (astropy's [Time]) is not modelled; [groupby_agg] and [load_sectors]
    are the same lines read on the instants the texts denote, and speak for
    the cell only as far as the keys, the grouping and the [dropna] lines go.

    Outside the embedding: the [print] lines of the loop, the columns of the
    catalogue no cell reads, and the archive behind [search_tesscut], whose
    answer is a parameter of the loop.  The two statements of the loop body
    that can refuse their input, [SkyCoord(...)] and [int(...)], are part of
    [matching_cell]; [find_matches] is the loop for coordinates and mission
    texts that are accepted.

    The archived copy of the notebook has the same cells (its catalogue file
    brings the [mjd] column with it).  The target-pixel notebook adds one
    cell with logic of its own, the marking of the aperture pixels by the
    binary representation of their values; it is embedded after the result
    cell. *)

From Stdlib Require Import QArith Qminmax ZArith List Ascii String Lia Lqa.
From stdpp Require Import base option list sorting gmap sets strings.

(** ** Comparisons on time stamps *)

Definition Qlt_bool (x y : Q) : bool := negb (Qle_bool y x).

(** ** Python values, errors and the object store *)

(** Address of a list object. *)
Abbreviation loc := nat.

(** What a cell of the [sectors] column can hold in this notebook: a
    reference to a list object, or [None]. *)
Inductive pyval :=
| PyNone
| PyList (l : loc).

Inductive exn :=
| IndexError       (* .iloc[0] on an empty selection *)
| AttributeError   (* None.append *)
| TypeError        (* len(None); min or max of a text and a missing value *)
| ValueError       (* reset_index: cannot insert level_0, already exists;
                      SkyCoord: declination outside [-90, 90]; int: no number *)
| KeyError.        (* df['sectors'] on a frame without that column *)

(** The list objects, by address.  Rows hold references into this store, so
    a row and its copy share the list. *)
Abbreviation heap := (gmap loc (list Z)).

(** A statement sequence that reads and updates the store and may raise.
    The store survives a raise: what was appended before stays appended. *)
Definition M (A : Type) : Type := heap -> heap * (exn + A).

Definition ret {A} (a : A) : M A := fun h => (h, inr a).
Definition raise {A} (e : exn) : M A := fun h => (h, inl e).
Definition bind {A B} (m : M A) (k : A -> M B) : M B :=
  fun h => match m h with
           | (h', inl e) => (h', inl e)
           | (h', inr a) => k a h'
           end.

Declare Scope py_scope.
Delimit Scope py_scope with py.
Notation "x <- m ;; k" := (bind m (fun x => k))
  (at level 100, m at next level, right associativity) : py_scope.
Notation "m ;;; k" := (bind m (fun _ => k))
  (at level 100, right associativity) : py_scope.

(** [for x in xs: body x], with the loop-carried variable [a]. *)
Fixpoint for_each {A B} (body : A -> B -> M A) (a : A) (xs : list B) : M A :=
  match xs with
  | [] => ret a
  | x :: xs' => (a' <- body a x ;; for_each body a' xs')%py
  end.

(** [v.append(s)]: grows the list object in place and returns [None]. *)
Definition append (v : pyval) (s : Z) : M pyval :=
  match v with
  | PyNone => raise AttributeError
  | PyList l => fun h => (alter (fun xs => xs ++ [s]) l h, inr PyNone)
  end.

(** [len(v)]. *)
Definition len (h : heap) (v : pyval) : exn + nat :=
  match v with
  | PyNone => inl TypeError
  | PyList l => inr (length (default [] (h !! l)))
  end.

(** [s.iloc[0]]. *)
Definition iloc0 {A} (s : list A) : M A :=
  match s with
  | [] => raise IndexError
  | x :: _ => ret x
  end.

(** ** The flare catalogue (loader cell, first half) *)

(** A line of the catalogue file, every cell present.  [start_time] stands
    for the instant of the ISO string.  (On a file with an empty cell the
    [replace()] line of the loader fills the cell from the line above; the
    files meant here have none, and on them that line changes nothing.) *)
Record CsvFlare := {
  csv_peak_obsid : Z;
  csv_source_ra : Q;
  csv_source_dec : Q;
  csv_start_time : Q
}.

(** A row of [spt_flares_df], and also the Series [iterrows] hands out: a
    copy of the cells, so [sectors] of the copy refers to the row's list. *)
Record FlareRow := {
  peak_obsid : Z;
  ra : Q;
  dec : Q;
  mjd : Q;
  sectors : pyval
}.

Definition set_sectors (flare : FlareRow) (v : pyval) : FlareRow :=
  {| peak_obsid := peak_obsid flare; ra := ra flare; dec := dec flare;
     mjd := mjd flare; sectors := v |}.

(** A frame row: its label (the frame's index), the cells of the label
    columns [reset_index] has inserted (leftmost first), and the data. *)
Record Row := {
  label : nat;
  saved : list nat;
  rec : FlareRow
}.

Record DataFrame := {
  label_columns : list string;
  rows : list Row
}.

(** [sort_values(by='mjd')]: returns a new frame, the receiver is unchanged. *)
Fixpoint insert_by_mjd (r : Row) (rs : list Row) : list Row :=
  match rs with
  | [] => [r]
  | r' :: rs' =>
      if Qle_bool (mjd (rec r)) (mjd (rec r')) then r :: rs
      else r' :: insert_by_mjd r rs'
  end.

Definition sort_values_mjd (df : DataFrame) : DataFrame :=
  {| label_columns := label_columns df;
     rows := foldr insert_by_mjd [] (rows df) |}.

(** [read_csv], the [mjd] column, the [sectors] column of fresh empty lists
    (one list object per row, at the address of its position) and the
    renaming of the coordinates. *)
Definition read_row (i : nat) (c : CsvFlare) : Row :=
  {| label := i; saved := [];
     rec := {| peak_obsid := csv_peak_obsid c;
               ra := csv_source_ra c; dec := csv_source_dec c;
               mjd := csv_start_time c;
               sectors := PyList i |} |}.

(** [[[] for _ in range(n)]]: [n] distinct empty list objects. *)
Definition fresh_lists (n : nat) : heap :=
  foldr (fun i h => <[i := []]> h) ∅ (seq 0 n).

(** The loader's flare half.  The sorted frame of the [sort_values] line is
    computed and dropped: the line does not assign it. *)
Definition load_flares (csv : list CsvFlare) : heap * DataFrame :=
  let spt_flares_df := {| label_columns := []; rows := imap read_row csv |} in
  let _ := sort_values_mjd spt_flares_df in
  (fresh_lists (length csv), spt_flares_df).

(** The list a cell refers to, as the store has it. *)
Definition matched_sectors (h : heap) (flare : FlareRow) : list Z :=
  match sectors flare with
  | PyNone => []
  | PyList l => default [] (h !! l)
  end.

(** ** The sector table (loader cell, second half) *)

(** A line of the orbit file with its times read as instants; any cell may
    be missing.  This and the aggregation [groupby_agg] below are the table
    as the instants show it, with missing values skipped; the cell itself
    aggregates the ISO texts, see [groupby_agg_text]. *)
Record OrbitRow := {
  orbit_Sector : option Z;
  Start_of_Orbit : option Q;
  End_of_Orbit : option Q
}.

(** A row after [groupby("Sector").agg(...)]: the key is present, the
    aggregates are missing when every value of the group is. *)
Record SectorAgg := {
  agg_Sector : Z;
  agg_Start : option Q;
  agg_End : option Q
}.

(** A row of [TESS_sectors_df] once both times are MJD values. *)
Record SectorRow := {
  Sector : Z;
  Sector_Start : Q;
  Sector_End : Q
}.

(** "min" and "max" on instants, missing values skipped (the reading on
    instants; on the texts, [agg_text]). *)
Definition skipna (op : Q -> Q -> Q) (a b : option Q) : option Q :=
  match a, b with
  | Some x, Some y => Some (op x y)
  | Some x, None => Some x
  | None, _ => b
  end.

Definition agg_min (col : list (option Q)) : option Q := foldr (skipna Qmin) None col.
Definition agg_max (col : list (option Q)) : option Q := foldr (skipna Qmax) None col.

(** The rows of one group. *)
Definition group (k : Z) (tbl : list OrbitRow) : list OrbitRow :=
  List.filter (fun o => bool_decide (orbit_Sector o = Some k)) tbl.

(** The group keys: the sector numbers present, each once, ascending (rows
    without a key belong to no group). *)
Definition group_keys (tbl : list OrbitRow) : list Z :=
  merge_sort Z.le (remove_dups (omap orbit_Sector tbl)).

Definition groupby_agg (tbl : list OrbitRow) : list SectorAgg :=
  map (fun k => {| agg_Sector := k;
                   agg_Start := agg_min (map Start_of_Orbit (group k tbl));
                   agg_End := agg_max (map End_of_Orbit (group k tbl)) |})
      (group_keys tbl).

(** [dropna(subset=['Sector Start'])]. *)
Definition dropna_Sector_Start (tbl : list SectorAgg) : list SectorAgg :=
  List.filter (fun r => bool_decide (is_Some (agg_Start r))) tbl.

(** The table before the conversion to MJD; the [dropna] line is there twice. *)
Definition aggregate_sectors (tbl : list OrbitRow) : list SectorAgg :=
  dropna_Sector_Start (dropna_Sector_Start (groupby_agg tbl)).

(** The conversion of the two time columns: it needs both values of a row. *)
Definition to_mjd (r : SectorAgg) : option SectorRow :=
  match agg_Start r, agg_End r with
  | Some s, Some e => Some {| Sector := agg_Sector r; Sector_Start := s; Sector_End := e |}
  | _, _ => None
  end.

Definition load_sectors (tbl : list OrbitRow) : option (list SectorRow) :=
  mapM to_mjd (aggregate_sectors tbl).

(** *** The aggregation on the ISO texts

    The orbit file is aggregated before its times are converted: "min" and
    "max" work on the ISO strings, in the order of Python strings
    (character by character), and the columns have the object dtype. *)

(** A line of the orbit file as [read_csv] has it. *)
Record OrbitLine := {
  line_Sector : option Z;
  line_Start : option string;
  line_End : option string
}.

(** A row after [groupby("Sector").agg(...)], the times still texts. *)
Record SectorText := {
  text_Sector : Z;
  text_Start : option string;
  text_End : option string
}.

(** Python's [min] and [max] of two strings. *)
Definition text_min (x y : string) : string := if String.leb x y then x else y.
Definition text_max (x y : string) : string := if String.leb x y then y else x.

(** "min" or "max" on one group of an object column: the reduction of the
    strings when all are there, a missing value when none is, and
    [TypeError] when strings and missing values stand together (a string
    and a float do not compare). *)
Definition agg_text (op : string -> string -> string) (col : list (option string))
  : exn + option string :=
  match omap id col with
  | [] => inr None
  | x :: xs =>
      if (length (x :: xs) =? length col)%nat then inr (Some (foldl op x xs))
      else inl TypeError
  end.

Definition line_group (k : Z) (tbl : list OrbitLine) : list OrbitLine :=
  List.filter (fun o => bool_decide (line_Sector o = Some k)) tbl.

Definition line_keys (tbl : list OrbitLine) : list Z :=
  merge_sort Z.le (remove_dups (omap line_Sector tbl)).

(** The aggregated rows for the keys [ks]; the first group that raises ends
    the aggregation. *)
Fixpoint agg_groups (tbl : list OrbitLine) (ks : list Z) : exn + list SectorText :=
  match ks with
  | [] => inr []
  | k :: ks' =>
      match agg_text text_min (map line_Start (line_group k tbl)) with
      | inl e => inl e
      | inr s =>
          match agg_text text_max (map line_End (line_group k tbl)) with
          | inl e => inl e
          | inr e =>
              match agg_groups tbl ks' with
              | inl err => inl err
              | inr rest => inr ({| text_Sector := k; text_Start := s; text_End := e |} :: rest)
              end
          end
      end
  end.

(** [TESS_sectors_df.groupby("Sector").agg({...min, ...max}).reset_index()]
    as the cell runs it. *)
Definition groupby_agg_text (tbl : list OrbitLine) : exn + list SectorText :=
  agg_groups tbl (line_keys tbl).

(** ** The candidate sectors *)

(** [(df.iloc[0]['mjd'], df.iloc[-1]['mjd'])]. *)
Definition spt_t_bounds (df : DataFrame) : exn + (Q * Q) :=
  match rows df with
  | [] => inl IndexError
  | r :: rs => inr (mjd (rec r), mjd (rec (List.last rs r)))
  end.

(** The rows with [Sector Start <= t_bounds[1]] and [Sector End >= t_bounds[0]],
    then the set of their sector numbers. *)
Definition valid_sectors (TESS_sectors_df : list SectorRow) (t_bounds : Q * Q) : gset Z :=
  list_to_set
    (map Sector
       (List.filter (fun w => Qle_bool (Sector_Start w) (snd t_bounds)
                              && Qle_bool (fst t_bounds) (Sector_End w))
                    TESS_sectors_df)).

Definition candidate_sectors (TESS_sectors_df : list SectorRow) (df : DataFrame)
  : exn + gset Z :=
  match spt_t_bounds df with
  | inl e => inl e
  | inr b => inr (valid_sectors TESS_sectors_df b)
  end.

(** ** The matching loop *)

(** [lk.search_tesscut(c, sectors)]: the archive's answer for a position and a
    set of sectors, each product read as its sector number
    ([int(data_prod.mission[0][11:])]).  The archive is outside the notebook;
    the loop is stated for any answer. *)
Definition tesscut := Q -> Q -> gset Z -> list Z.

(** The body of the inner loop, for the Series [flare] and one product. *)
Definition check_product (TESS_sectors_df : list SectorRow)
    (flare : FlareRow) (sector : Z) : M FlareRow :=
  let sector_time := List.filter (fun w => Z.eqb (Sector w) sector) TESS_sectors_df in
  (sector_start <- iloc0 (map Sector_Start sector_time) ;;
   sector_end <- iloc0 (map Sector_End sector_time) ;;
   if Qlt_bool sector_start (mjd flare) && Qlt_bool (mjd flare) sector_end
   then v <- append (sectors flare) sector ;; ret (set_sectors flare v)
   else ret flare)%py.

(** The body of the outer loop from the archive query on: [flare] is the
    copy of the row.  The statements before the query are in
    [iterrows_body]. *)
Definition match_flare (TESS_sectors_df : list SectorRow) (search : tesscut)
    (valid : gset Z) (r : Row) : M unit :=
  let flare := rec r in
  let possible_matches := search (ra flare) (dec flare) valid in
  if (1 <=? length possible_matches)%nat
  then (for_each (check_product TESS_sectors_df) flare possible_matches ;;; ret tt)%py
  else ret tt.

Definition find_matches (TESS_sectors_df : list SectorRow) (search : tesscut)
    (valid : gset Z) (df : DataFrame) : M unit :=
  for_each (fun _ r => match_flare TESS_sectors_df search valid r) tt (rows df).

(** *** The whole body of the loop

    [match_flare] is the body from the archive query on, for a row whose
    coordinate astropy has accepted and for products whose mission text
    names a sector.  The two statements that can refuse their input are put
    in front of it here: [SkyCoord(ra, dec, unit='deg')] and
    [int(data_prod.mission[0][11:])].  ([Time(flare['mjd'], ...)] takes any
    float.) *)

(** [SkyCoord(ra, dec, unit='deg')]: a declination outside [-90, 90] is
    refused with [ValueError]; a right ascension is wrapped, never refused. *)
Definition SkyCoord (ra dec : Q) : exn + (Q * Q) :=
  if Qle_bool (-90) dec && Qle_bool dec 90 then inr (ra, dec) else inl ValueError.

(** The archive's answer with each product as [int] finds it: the number its
    mission text denotes, or nothing when [int] refuses the text. *)
Definition tesscut_texts := Q -> Q -> gset Z -> list (option Z).

(** [int(data_prod.mission[0][11:])], then the body of the inner loop. *)
Definition check_data_prod (TESS_sectors_df : list SectorRow)
    (flare : FlareRow) (data_prod : option Z) : M FlareRow :=
  match data_prod with
  | None => raise ValueError
  | Some sector => check_product TESS_sectors_df flare sector
  end.

(** Lines 244 to 264 for one row. *)
Definition iterrows_body (TESS_sectors_df : list SectorRow) (search : tesscut_texts)
    (valid : gset Z) (r : Row) : M unit :=
  let flare := rec r in
  match SkyCoord (ra flare) (dec flare) with
  | inl e => raise e
  | inr c =>
      let possible_matches := search (fst c) (snd c) valid in
      if (1 <=? length possible_matches)%nat
      then (for_each (check_data_prod TESS_sectors_df) flare possible_matches ;;; ret tt)%py
      else ret tt
  end.

(** The matching cell. *)
Definition matching_cell (TESS_sectors_df : list SectorRow) (search : tesscut_texts)
    (valid : gset Z) (df : DataFrame) : M unit :=
  for_each (fun _ r => iterrows_body TESS_sectors_df search valid r) tt (rows df).

(** ** The result *)

(** The row [reset_index] makes of a row at position [i]. *)
Definition relabel (i : nat) (r : Row) : Row :=
  {| label := i; saved := label r :: saved r; rec := rec r |}.

(** [df.reset_index()]: the labels become a column, named [index], or
    [level_0] when there is an [index] column already; new labels count from 0. *)
Definition reset_index (df : DataFrame) : exn + DataFrame :=
  let name := if bool_decide ("index" ∈ label_columns df) then "level_0" else "index" in
  if bool_decide (name ∈ label_columns df) then inl ValueError
  else inr {| label_columns := name :: label_columns df;
              rows := imap relabel (rows df) |}.

(** [df['sectors'].apply(lambda x: len(x) > 0)]: the mask, row by row. *)
Fixpoint sectors_mask (h : heap) (rs : list Row) : exn + list bool :=
  match rs with
  | [] => inr []
  | r :: rs' =>
      match len h (sectors (rec r)) with
      | inl e => inl e
      | inr n =>
          match sectors_mask h rs' with
          | inl e => inl e
          | inr m => inr ((0 <? n)%nat :: m)
          end
      end
  end.

(** [df[mask]]. *)
Fixpoint select {A} (rs : list A) (mask : list bool) : list A :=
  match rs, mask with
  | r :: rs', b :: mask' => if b then r :: select rs' mask' else select rs' mask'
  | _, _ => []
  end.

(** The result cell on a frame that has its data columns; it reads the store
    and does not change it.  With at least one row [apply] returns a boolean
    mask and this is the cell.  Without rows the subscript selects columns,
    not rows, and this is the cell as far as the record goes only on a frame
    without label columns (no rows, then [index]); [result_cell] is the
    cell on any frame. *)
Definition spt_tess_candidates (h : heap) (df : DataFrame) : exn + DataFrame :=
  match sectors_mask h (rows df) with
  | inl e => inl e
  | inr mask =>
      reset_index {| label_columns := label_columns df; rows := select (rows df) mask |}
  end.

(** A frame together with the note whether it still has the data columns
    of the catalogue ([sectors] among them). *)
Definition Frame : Type := DataFrame * bool.

(** [df[df['sectors'].apply(lambda x: len(x) > 0)].reset_index()] on any
    frame.  Without the column [sectors] the first subscript raises
    [KeyError].  On a frame without rows [apply] returns an empty Series of
    the column's own dtype, which is no boolean mask: the subscript selects
    the columns named in it, that is none, and [reset_index] then inserts
    [index] into a frame that has no other column.  With rows the result of
    [apply] is a boolean mask and the cell is [spt_tess_candidates]. *)
Definition result_cell (h : heap) (f : Frame) : exn + Frame :=
  let (df, has_data) := f in
  if negb has_data then inl KeyError
  else match rows df with
       | [] => inr ({| label_columns := ["index"]; rows := [] |}, false)
       | _ :: _ =>
           match spt_tess_candidates h df with
           | inl e => inl e
           | inr out => inr (out, true)
           end
       end.

(** ** Notions the statements use *)

(** The window the inner loop reads for a product: the first row of the
    selection [TESS_sectors_df['Sector'] == sector], if there is one. *)
Definition sector_window (TESS_sectors_df : list SectorRow) (sector : Z) : option (Q * Q) :=
  match List.filter (fun w => Z.eqb (Sector w) sector) TESS_sectors_df with
  | [] => None
  | w :: _ => Some (Sector_Start w, Sector_End w)
  end.

(** The time test of the inner loop, on that window. *)
Definition in_window (TESS_sectors_df : list SectorRow) (t : Q) (sector : Z) : bool :=
  match sector_window TESS_sectors_df sector with
  | None => false
  | Some (a, b) => Qlt_bool a t && Qlt_bool t b
  end.

(** The products the archive returns for a row. *)
Definition hits_of (search : tesscut) (valid : gset Z) (r : Row) : list Z :=
  search (ra (rec r)) (dec (rec r)) valid.

Definition cell_loc (r : Row) : option loc :=
  match sectors (rec r) with
  | PyNone => None
  | PyList l => Some l
  end.

(** The list objects the rows of a frame refer to. *)
Definition cell_locs (rs : list Row) : list loc := omap cell_loc rs.

(** [h'] is [h] but for one more element at the end of some of the lists
    at [ls]. *)
Definition grows (ls : list loc) (h h' : heap) : Prop :=
  forall l, h' !! l = h !! l \/
            (l ∈ ls /\ exists s, h' !! l = (fun xs => xs ++ [s]) <$> h !! l).

(** The run up to a point of the loop nest: the rows [pre] done, then the
    first [k] products of the row [r].  It returns the copy [flare] as it is
    at that point. *)
Definition run_upto (TESS_sectors_df : list SectorRow) (search : tesscut)
    (valid : gset Z) (pre : list Row) (r : Row) (k : nat) : M FlareRow :=
  (for_each (fun _ r' => match_flare TESS_sectors_df search valid r') tt pre ;;;
   for_each (check_product TESS_sectors_df) (rec r) (take k (hits_of search valid r)))%py.

(** The products the archive returns for a row, as the cell reads them. *)
Definition products_of (search : tesscut_texts) (valid : gset Z) (r : Row)
  : list (option Z) :=
  search (ra (rec r)) (dec (rec r)) valid.

(** The sector numbers among them. *)
Definition sectors_of (search : tesscut_texts) (valid : gset Z) (r : Row) : list Z :=
  omap id (products_of search valid r).

(** The declination of the row is one [SkyCoord] accepts. *)
Definition dec_in_range (r : Row) : bool :=
  Qle_bool (-90) (dec (rec r)) && Qle_bool (dec (rec r)) 90.

(** The row has at least one matched sector. *)
Definition has_match (h : heap) (r : Row) : bool :=
  (0 <? length (matched_sectors h (rec r)))%nat.

(** In the group of sector [k] the column [col] has a missing value beside
    a text. *)
Definition mixed_group (tbl : list OrbitLine) (col : OrbitLine -> option string)
    (k : Z) : Prop :=
  (exists o, o ∈ tbl /\ line_Sector o = Some k /\ col o = None) /\
  (exists o s, o ∈ tbl /\ line_Sector o = Some k /\ col o = Some s).

(** [m] is the first, in the order of strings, of the texts the lines of
    sector [k] have in the column [col]; missing when every line of the
    sector has none. *)
Definition least_text (tbl : list OrbitLine) (col : OrbitLine -> option string)
    (k : Z) (m : option string) : Prop :=
  match m with
  | None => forall o, o ∈ tbl -> line_Sector o = Some k -> col o = None
  | Some x =>
      (exists o, o ∈ tbl /\ line_Sector o = Some k /\ col o = Some x) /\
      (forall o y, o ∈ tbl -> line_Sector o = Some k -> col o = Some y ->
                   String.leb x y = true)
  end.

(** [m] is the last, in the order of strings, of those texts. *)
Definition greatest_text (tbl : list OrbitLine) (col : OrbitLine -> option string)
    (k : Z) (m : option string) : Prop :=
  match m with
  | None => forall o, o ∈ tbl -> line_Sector o = Some k -> col o = None
  | Some x =>
      (exists o, o ∈ tbl /\ line_Sector o = Some k /\ col o = Some x) /\
      (forall o y, o ∈ tbl -> line_Sector o = Some k -> col o = Some y ->
                   String.leb y x = true)
  end.

(** On the texts the lines of sector [k] have in the column [col], the
    reading [t] of a text as an instant goes with the order of strings (as
    it does for stamps of one width, every field zero-padded). *)
Definition reads_in_text_order (t : string -> Q) (tbl : list OrbitLine)
    (col : OrbitLine -> option string) (k : Z) : Prop :=
  forall o o' y y', o ∈ tbl -> o' ∈ tbl ->
    line_Sector o = Some k -> line_Sector o' = Some k ->
    col o = Some y -> col o' = Some y' ->
    String.leb y y' = true -> (t y <= t y')%Q.

(** ** The aperture bit mask (target-pixel notebook)

    The cell that marks the pixels of the photometric aperture: it writes
    each pixel value in binary and looks at the second character from the
    right.  A Python [str] is the list of its characters; the array
    [bitmask2_set] of zeros and ones is a list of rows. *)

(** [bin(p)[2:]]: the binary digits of a positive number, the most
    significant first. *)
Fixpoint bin_digits (p : positive) : list Ascii.ascii :=
  match p with
  | xH => ["1"%char]
  | xO q => bin_digits q ++ ["0"%char]
  | xI q => bin_digits q ++ ["1"%char]
  end.

(** [np.binary_repr(num)] without a width: ['0'] for zero, the digits for a
    positive number, a minus sign before the digits of [-num] for a negative
    one. *)
Definition binary_repr (num : Z) : list Ascii.ascii :=
  match num with
  | Z0 => ["0"%char]
  | Zpos p => bin_digits p
  | Zneg p => "-"%char :: bin_digits p
  end.

(** [s[-k]] for [k >= 1]: the [k]-th character from the right. *)
Definition getitem_neg (s : list Ascii.ascii) (k : nat) : exn + Ascii.ascii :=
  if (length s <? k)%nat then inl IndexError
  else match s !! (length s - k)%nat with
       | Some c => inr c
       | None => inl IndexError
       end.

(** [np.binary_repr(pix)[-2] == '1']. *)
Definition bitmask_value_2 (pix : Z) : exn + bool :=
  let this_bitmask := binary_repr pix in
  match getitem_neg this_bitmask 2 with
  | inl e => inl e
  | inr c => inr (Ascii.eqb c "1"%char)
  end.

(** [np.zeros(aperture.shape)]. *)
Definition zeros_like (aperture : list (list Z)) : list (list Z) :=
  map (map (fun _ => 0%Z)) aperture.

(** [a[i,j] = v] in place, for an index inside the array (the loop below
    only writes at indices it has read). *)
Definition setitem2 (a : list (list Z)) (i j : nat) (v : Z) : list (list Z) :=
  match a !! i with
  | Some row => <[i := <[j := v]> row]> a
  | None => a
  end.

(** [for j, pix in enumerate(row)], from column [j] on.  The array outlives
    a raise. *)
Fixpoint mark_row (i j : nat) (row : list Z) (bitmask2_set : list (list Z))
  : list (list Z) * (exn + unit) :=
  match row with
  | [] => (bitmask2_set, inr tt)
  | pix :: row' =>
      match bitmask_value_2 pix with
      | inl e => (bitmask2_set, inl e)
      | inr true => mark_row i (S j) row' (setitem2 bitmask2_set i j 1)
      | inr false => mark_row i (S j) row' bitmask2_set
      end
  end.

(** [for i, row in enumerate(aperture)], from row [i] on. *)
Fixpoint mark_rows (i : nat) (aperture : list (list Z)) (bitmask2_set : list (list Z))
  : list (list Z) * (exn + unit) :=
  match aperture with
  | [] => (bitmask2_set, inr tt)
  | row :: aperture' =>
      match mark_row i 0 row bitmask2_set with
      | (a, inl e) => (a, inl e)
      | (a, inr _) => mark_rows (S i) aperture' a
      end
  end.

(** The cell: the array of zeros, then the two loops. *)
Definition mark_aperture (aperture : list (list Z)) : list (list Z) * (exn + unit) :=
  mark_rows 0 aperture (zeros_like aperture).


(** ** Inputs of the scenarios *)

Definition flare_at (t : Q) : CsvFlare :=
  {| csv_peak_obsid := 1; csv_source_ra := 0; csv_source_dec := 0; csv_start_time := t |}.

(** The same away from the origin, for an archive that tells positions apart. *)
Definition far_flare_at (t : Q) : CsvFlare :=
  {| csv_peak_obsid := 2; csv_source_ra := 90; csv_source_dec := 0; csv_start_time := t |}.

(** The sector table [{(1, 100.0, 110.0), (2, 108.0, 120.0)}]. *)
Definition sectors_1_2 : list SectorRow :=
  [ {| Sector := 1; Sector_Start := 100; Sector_End := 110 |};
    {| Sector := 2; Sector_Start := 108; Sector_End := 120 |} ].

(** An archive that answers with the given products at every position. *)
Definition always (products : list Z) : tesscut := fun _ _ _ => products.

(** An archive with one answer at right ascension 0 and another elsewhere. *)
Definition at_origin (products elsewhere : list Z) : tesscut :=
  fun ra _ _ => if Qeq_bool ra 0 then products else elsewhere.

(** A flare at the declination [d]. *)
Definition flare_dec_at (d t : Q) : CsvFlare :=
  {| csv_peak_obsid := 3; csv_source_ra := 0; csv_source_dec := d; csv_start_time := t |}.

(** An archive that answers with the given products, as [int] reads them,
    at every position. *)
Definition always_texts (products : list (option Z)) : tesscut_texts :=
  fun _ _ _ => products.

(** * Properties *)

(** Closed statements about the scenarios are settled by evaluation. *)
Ltac by_evaluation := vm_compute; reflexivity.

(** Facts about the growth of the store, for [auto]. *)
Create HintDb store.

(** ** Time stamps *)

Lemma Qlt_bool_iff (x y : Q) : Qlt_bool x y = true <-> (x < y)%Q.
Proof.
  unfold Qlt_bool. rewrite negb_true_iff. split.
  - intros H. apply Qnot_le_lt. intros Hle.
    apply Qle_bool_iff in Hle. congruence.
  - intros H. destruct (Qle_bool y x) eqn:E; [|reflexivity].
    apply Qle_bool_iff in E. exfalso. exact (Qlt_not_le _ _ H E).
Qed.

Lemma sector_window_None tbl sector :
  sector_window tbl sector = None <-> (forall w, w ∈ tbl -> Sector w <> sector).
Proof.
  unfold sector_window. induction tbl as [|w tbl IH]; simpl.
  - split; [intros _ w Hw; inversion Hw | reflexivity].
  - destruct (Z.eqb_spec (Sector w) sector) as [E|E]; simpl.
    + split; [discriminate|]. intros H. exfalso. apply (H w); [left | exact E].
    + rewrite IH. split.
      * intros H w' Hw'. apply elem_of_cons in Hw' as [->|Hw']; auto.
      * intros H w' Hw'. apply H. now right.
Qed.

Lemma sector_window_unique tbl w :
  NoDup (map Sector tbl) -> w ∈ tbl ->
  sector_window tbl (Sector w) = Some (Sector_Start w, Sector_End w).
Proof.
  unfold sector_window. induction tbl as [|w' tbl IH]; simpl; intros Hnd Hw.
  - inversion Hw.
  - apply NoDup_cons in Hnd as [Hnotin Hnd].
    destruct (Z.eqb_spec (Sector w') (Sector w)) as [E|E].
    + apply elem_of_cons in Hw as [->|Hw]; [reflexivity|].
      exfalso. apply Hnotin. rewrite E. now apply list_elem_of_fmap_2.
    + apply elem_of_cons in Hw as [->|Hw]; [congruence|]. now apply IH.
Qed.

(** The time test is strict at both ends. *)
Lemma in_window_strict tbl t sector :
  in_window tbl t sector = true <->
  exists a b, sector_window tbl sector = Some (a, b) /\ (a < t)%Q /\ (t < b)%Q.
Proof.
  unfold in_window. destruct (sector_window tbl sector) as [[a b]|].
  - rewrite andb_true_iff, !Qlt_bool_iff. split.
    + intros [H1 H2]. now exists a, b.
    + intros (a' & b' & [= <- <-] & H1 & H2). now split.
  - split; [discriminate | intros (a & b & [=] & _)].
Qed.

(** A flare at the start or at the end of a window is outside it. *)
Lemma in_window_boundary tbl t sector a b :
  sector_window tbl sector = Some (a, b) ->
  (t == a)%Q \/ (t == b)%Q -> in_window tbl t sector = false.
Proof.
  intros Hw Hb. destruct (in_window tbl t sector) eqn:E; [|reflexivity].
  apply in_window_strict in E as (a' & b' & Hw' & H1 & H2).
  rewrite Hw in Hw'. injection Hw' as <- <-.
  destruct Hb as [Hb|Hb]; rewrite Hb in *; exfalso; eapply Qlt_irrefl; eassumption.
Qed.

(** ** The statement monad *)

Lemma for_each_app {A B} (body : A -> B -> M A) (a : A) (xs ys : list B) (h : heap) :
  for_each body a (xs ++ ys) h =
  bind (for_each body a xs) (fun a' => for_each body a' ys) h.
Proof.
  revert a h. induction xs as [|x xs IH]; intros a h; simpl.
  - reflexivity.
  - unfold bind. destruct (body a x h) as [h1 [e|a1]]; [reflexivity|].
    rewrite IH. reflexivity.
Qed.

(** ** The state after loading *)

Lemma load_flares_eq csv :
  load_flares csv =
  (fresh_lists (length csv), {| label_columns := []; rows := imap read_row csv |}).
Proof. reflexivity. Qed.

Lemma cell_locs_imap_read_row (k : nat) csv :
  cell_locs (imap (fun i c => read_row (k + i) c) csv) = seq k (length csv).
Proof.
  revert k. induction csv as [|c csv IH]; intros k; [reflexivity|].
  simpl. unfold cell_locs. simpl. rewrite Nat.add_0_r. f_equal.
  rewrite <- (IH (S k)). unfold cell_locs. f_equal.
  apply imap_ext. intros i x _. simpl. f_equal. lia.
Qed.

Lemma cell_locs_loaded csv : cell_locs (imap read_row csv) = seq 0 (length csv).
Proof. exact (cell_locs_imap_read_row 0 csv). Qed.

Lemma fresh_lists_lookup n i :
  fresh_lists n !! i = if decide (i < n)%nat then Some [] else None.
Proof.
  unfold fresh_lists.
  assert (forall ls : list nat,
            foldr (fun i (h : heap) => <[i := []]> h) ∅ ls !! i
            = if decide (i ∈ ls) then Some [] else None) as Hgen.
  { induction ls as [|j ls IH]; simpl.
    - rewrite lookup_empty. destruct (decide (i ∈ [])) as [H|_]; [inversion H | reflexivity].
    - destruct (decide (j = i)) as [->|Hne].
      + rewrite lookup_insert_eq. destruct (decide (i ∈ i :: ls)) as [_|H];
          [reflexivity | exfalso; apply H; left].
      + rewrite lookup_insert_ne by exact Hne. rewrite IH.
        destruct (decide (i ∈ ls)) as [H|H], (decide (i ∈ j :: ls)) as [H'|H'];
          try reflexivity.
        * exfalso. apply H'. now right.
        * exfalso. apply elem_of_cons in H' as [->|H']; [now apply Hne | now apply H]. }
  rewrite Hgen.
  destruct (decide (i ∈ seq 0 n)) as [H|H], (decide (i < n)%nat) as [H'|H'];
    try reflexivity; exfalso.
  - apply elem_of_seq in H. lia.
  - apply H. apply elem_of_seq. lia.
Qed.

Lemma loaded_row csv r :
  r ∈ imap read_row csv ->
  exists i c, csv !! i = Some c /\ r = read_row i c.
Proof.
  intros Hr. apply list_elem_of_lookup in Hr as [i Hi].
  rewrite list_lookup_imap in Hi.
  destruct (csv !! i) as [c|] eqn:Ec; [|discriminate].
  injection Hi as <-. now exists i, c.
Qed.

(** After any growth of the loaded store, a row has no match or one. *)
Lemma loaded_grows_cases csv h' r :
  grows (seq 0 (length csv)) (fresh_lists (length csv)) h' ->
  r ∈ imap read_row csv ->
  matched_sectors h' (rec r) = [] \/ exists s, matched_sectors h' (rec r) = [s].
Proof.
  intros Hg Hr. apply loaded_row in Hr as (i & c & Hi & ->).
  apply lookup_lt_Some in Hi.
  unfold matched_sectors. simpl.
  pose proof (fresh_lists_lookup (length csv) i) as Hf.
  destruct (decide (i < length csv)%nat); [|lia].
  destruct (Hg i) as [E|[_ [s E]]]; rewrite E, Hf; simpl; [now left|].
  right. now exists s.
Qed.

(** ** The loop nest

    The sector table, the archive and the candidate set are fixed during a
    run. *)

Section Loop.

Variable tbl : list SectorRow.
Variable search : tesscut.
Variable valid : gset Z.

(** *** One product *)

(** What the body of the inner loop does, case by case. *)
Lemma check_product_eq flare sector h :
  check_product tbl flare sector h =
  match sector_window tbl sector with
  | None => (h, inl IndexError)
  | Some (a, b) =>
      if Qlt_bool a (mjd flare) && Qlt_bool (mjd flare) b
      then match sectors flare with
           | PyNone => (h, inl AttributeError)
           | PyList l => (alter (fun xs => xs ++ [sector]) l h,
                          inr (set_sectors flare PyNone))
           end
      else (h, inr flare)
  end.
Proof.
  unfold check_product, sector_window.
  destruct (List.filter _ tbl) as [|w ws]; [reflexivity|].
  simpl. unfold bind, ret; simpl.
  destruct (Qlt_bool (Sector_Start w) (mjd flare) && Qlt_bool (mjd flare) (Sector_End w));
    [|reflexivity].
  destruct (sectors flare); reflexivity.
Qed.

(** Once the copy's cell is [None], no product changes the store. *)
Lemma check_product_None flare sector h :
  sectors flare = PyNone ->
  check_product tbl flare sector h =
  match sector_window tbl sector with
  | None => (h, inl IndexError)
  | Some _ => if in_window tbl (mjd flare) sector
              then (h, inl AttributeError) else (h, inr flare)
  end.
Proof.
  intros Hn. rewrite check_product_eq. unfold in_window.
  destruct (sector_window tbl sector) as [[a b]|]; [|reflexivity].
  destruct (_ && _); [|reflexivity]. now rewrite Hn.
Qed.

Lemma check_product_cases flare sector h :
  check_product tbl flare sector h =
  match sector_window tbl sector with
  | None => (h, inl IndexError)
  | Some _ =>
      if in_window tbl (mjd flare) sector
      then match sectors flare with
           | PyNone => (h, inl AttributeError)
           | PyList l => (alter (fun xs => xs ++ [sector]) l h,
                          inr (set_sectors flare PyNone))
           end
      else (h, inr flare)
  end.
Proof.
  rewrite check_product_eq. unfold in_window.
  destruct (sector_window tbl sector) as [[a b]|]; reflexivity.
Qed.

Lemma in_window_absent t sector :
  sector_window tbl sector = None -> in_window tbl t sector = false.
Proof. unfold in_window. now intros ->. Qed.

(** *** The inner loop *)

Lemma for_each_cons {A B} (body : A -> B -> M A) a x xs h :
  for_each body a (x :: xs) h =
  match body a x h with
  | (h', inl e) => (h', inl e)
  | (h', inr a') => for_each body a' xs h'
  end.
Proof. reflexivity. Qed.

(** With [None] in the copy's cell the store stays as it is, and the loop
    gets through only if no product passes the time test. *)
Lemma inner_loop_None flare hits h h' out :
  sectors flare = PyNone ->
  for_each (check_product tbl) flare hits h = (h', out) ->
  h' = h /\
  (forall f', out = inr f' ->
     f' = flare /\ List.filter (in_window tbl (mjd flare)) hits = []).
Proof.
  intros Hn. revert h h' out. induction hits as [|s hits IH]; intros h h' out.
  - simpl. unfold ret. intros [= <- <-]. split; [reflexivity|].
    intros f' [= <-]. now split.
  - rewrite for_each_cons, check_product_None by exact Hn.
    destruct (sector_window tbl s) eqn:Ew.
    + destruct (in_window tbl (mjd flare) s) eqn:Ein.
      * intros [= <- <-]. split; [reflexivity|]. intros f' [=].
      * intros Hrun. apply IH in Hrun as [-> Hout]. split; [reflexivity|].
        intros f' Hf'. apply Hout in Hf' as [-> Hfl]. split; [reflexivity|].
        simpl. now rewrite Ein.
    + intros [= <- <-]. split; [reflexivity|]. intros f' [=].
Qed.

(** With the row's list in the copy's cell: whatever the outcome, the loop
    appends at most once, and what it appends is a product that passed the
    time test. *)
Lemma inner_loop_store flare l hits h h' out :
  sectors flare = PyList l ->
  for_each (check_product tbl) flare hits h = (h', out) ->
  h' = h \/
  exists s, s ∈ hits /\ in_window tbl (mjd flare) s = true /\
            h' = alter (fun xs => xs ++ [s]) l h.
Proof.
  intros Hl. revert h h' out. induction hits as [|s hits IH]; intros h h' out.
  - simpl. unfold ret. intros [= <- <-]. now left.
  - rewrite for_each_cons, check_product_cases.
    destruct (sector_window tbl s) eqn:Ew.
    + destruct (in_window tbl (mjd flare) s) eqn:Ein.
      * rewrite Hl. intros Hrun.
        apply inner_loop_None in Hrun as [-> _]; [|reflexivity].
        right. exists s. split; [left|]. now split.
      * intros Hrun. apply IH in Hrun as [->|(s' & Hs' & Hin & ->)]; [now left|].
        right. exists s'. split; [now right|]. now split.
    + intros [= <- <-]. now left.
Qed.

(** A loop that gets through has met at most one product that passes the
    time test, and has appended exactly those it met. *)
Lemma inner_loop_done flare l hits h h' f' :
  sectors flare = PyList l ->
  for_each (check_product tbl) flare hits h = (h', inr f') ->
  (List.filter (in_window tbl (mjd flare)) hits = [] /\ h' = h /\ f' = flare) \/
  (exists s, List.filter (in_window tbl (mjd flare)) hits = [s] /\
             h' = alter (fun xs => xs ++ [s]) l h /\
             f' = set_sectors flare PyNone).
Proof.
  intros Hl. revert h h' f'. induction hits as [|s hits IH]; intros h h' f'.
  - simpl. unfold ret. intros [= <- <-]. left. now repeat split.
  - rewrite for_each_cons, check_product_cases.
    destruct (sector_window tbl s) eqn:Ew; [|intros [=]].
    simpl. destruct (in_window tbl (mjd flare) s) eqn:Ein.
    + rewrite Hl. intros Hrun.
      apply inner_loop_None in Hrun as [-> Hout]; [|reflexivity].
      destruct (Hout f' eq_refl) as [-> Hfl]. simpl in Hfl.
      right. exists s. rewrite Hfl. now repeat split.
    + intros Hrun. now apply IH in Hrun.
Qed.

(** *** The outer loop *)

Lemma grows_refl ls h : grows ls h h.
Proof. intros l. now left. Qed.

Lemma grows_alter l s h : grows [l] h (alter (fun xs => xs ++ [s]) l h).
Proof.
  intros l'. destruct (decide (l = l')) as [<-|Hne].
  - right. split; [left|]. exists s. apply lookup_alter_eq.
  - left. now apply lookup_alter_ne.
Qed.

#[local] Hint Resolve grows_refl grows_alter : store.

Lemma grows_trans ls1 ls2 h h1 h2 :
  (forall l, l ∈ ls1 -> l ∈ ls2 -> False) ->
  grows ls1 h h1 -> grows ls2 h1 h2 -> grows (ls1 ++ ls2) h h2.
Proof.
  intros Hdisj H1 H2 l. destruct (H2 l) as [E2|[Hin2 [s E2]]].
  - rewrite E2. destruct (H1 l) as [E1|[Hin1 [s E1]]]; [now left|].
    right. split; [apply elem_of_app; now left|]. now exists s.
  - destruct (H1 l) as [E1|[Hin1 _]]; [|exfalso; eauto].
    right. split; [apply elem_of_app; now right|]. exists s. now rewrite E2, E1.
Qed.

Lemma match_flare_eq r h :
  match_flare tbl search valid r h =
  match for_each (check_product tbl) (rec r) (hits_of search valid r) h with
  | (h', inl e) => (h', inl e)
  | (h', inr _) => (h', inr tt)
  end.
Proof.
  unfold match_flare, hits_of.
  destruct (search (ra (rec r)) (dec (rec r)) valid) as [|s hits]; reflexivity.
Qed.

Lemma inner_loop_grows r hits h h' out :
  for_each (check_product tbl) (rec r) hits h = (h', out) ->
  grows (cell_locs [r]) h h'.
Proof.
  intros Hrun. unfold cell_locs, cell_loc. simpl.
  destruct (sectors (rec r)) as [|l] eqn:Hc; simpl.
  - apply inner_loop_None in Hrun as [-> _]; auto with store.
  - destruct (inner_loop_store _ l _ _ _ _ Hc Hrun) as [->|(s & _ & _ & ->)];
      auto with store.
Qed.

Lemma match_flare_grows r h h' out :
  match_flare tbl search valid r h = (h', out) -> grows (cell_locs [r]) h h'.
Proof.
  rewrite match_flare_eq.
  destruct (for_each _ _ _ h) as [h1 o1] eqn:Hrun. intros Heq.
  assert (h' = h1) as -> by (destruct o1; now inversion Heq).
  exact (inner_loop_grows _ _ _ _ _ Hrun).
Qed.

Lemma cell_locs_cons r rs : cell_locs (r :: rs) = cell_locs [r] ++ cell_locs rs.
Proof. unfold cell_locs. simpl. destruct (cell_loc r); reflexivity. Qed.

Lemma cell_locs_app rs1 rs2 : cell_locs (rs1 ++ rs2) = cell_locs rs1 ++ cell_locs rs2.
Proof. apply omap_app. Qed.

(** Whatever the outcome, the run appends at most once to the list of each
    row, as long as no two rows share a list. *)
Lemma find_matches_grows rs h h' out :
  NoDup (cell_locs rs) ->
  for_each (fun _ r => match_flare tbl search valid r) tt rs h = (h', out) ->
  grows (cell_locs rs) h h'.
Proof.
  revert h h' out. induction rs as [|r rs IH]; intros h h' out Hnd.
  - simpl. unfold ret. intros [= <- <-]. auto with store.
  - rewrite for_each_cons.
    destruct (match_flare tbl search valid r h) as [h1 o1] eqn:Hr.
    apply match_flare_grows in Hr.
    rewrite cell_locs_cons in Hnd |- *. apply NoDup_app in Hnd as (_ & Hdisj & Hnd).
    destruct o1 as [e|[]].
    + intros [= <- <-]. apply (grows_trans _ _ h h1 h1); auto with store.
    + intros Hrun. apply (grows_trans _ _ h h1 h'); [exact Hdisj | exact Hr |].
      now apply (IH h1 h' out).
Qed.

(** A run that gets through has appended, to the list of each row, the
    products of that row that pass the time test: none or one. *)
Lemma find_matches_done rs h h' :
  NoDup (cell_locs rs) ->
  for_each (fun _ r => match_flare tbl search valid r) tt rs h = (h', inr tt) ->
  forall r l, r ∈ rs -> cell_loc r = Some l ->
    let passed := List.filter (in_window tbl (mjd (rec r))) (hits_of search valid r) in
    h' !! l = (fun xs => xs ++ passed) <$> h !! l /\ (length passed <= 1)%nat.
Proof.
  revert h h'. induction rs as [|r0 rs IH]; intros h h' Hnd Hrun r l Hr Hl.
  - inversion Hr.
  - rewrite for_each_cons in Hrun.
    destruct (match_flare tbl search valid r0 h) as [h1 [e|[]]] eqn:Hr0; [discriminate|].
    pose proof (find_matches_grows _ _ _ _
                  (proj2 (proj2 (proj1 (NoDup_app _ _)
                     (eq_ind _ _ Hnd _ (cell_locs_cons r0 rs))))) Hrun) as Hrest.
    rewrite cell_locs_cons in Hnd. apply NoDup_app in Hnd as (_ & Hdisj & Hnd).
    rewrite match_flare_eq in Hr0.
    destruct (for_each (check_product tbl) (rec r0) (hits_of search valid r0) h)
      as [h1' [e|f']] eqn:Hin; [discriminate|].
    injection Hr0 as ->.
    apply elem_of_cons in Hr as [->|Hr].
    + (* the row at the head: the rest of the run leaves its list alone *)
      assert (h' !! l = h1 !! l) as ->.
      { destruct (Hrest l) as [E|[Hin' _]]; [exact E|].
        exfalso. apply (Hdisj l); [|exact Hin'].
        unfold cell_locs. simpl. rewrite Hl. left. }
      unfold cell_loc in Hl. destruct (sectors (rec r0)) as [|l0] eqn:Hc; [discriminate|].
      injection Hl as ->.
      destruct (inner_loop_done _ l _ _ _ _ Hc Hin) as [(-> & -> & _)|(s & -> & -> & _)].
      * simpl. split; [|lia]. destruct (h !! l); simpl; [now rewrite app_nil_r | reflexivity].
      * simpl. split; [apply lookup_alter_eq | lia].
    + (* a later row: the head has not touched its list *)
      destruct (IH h1 h' Hnd Hrun r l Hr Hl) as [E Hlen]. split; [|exact Hlen].
      simpl. rewrite E. f_equal.
      assert (l ∈ cell_locs rs) as Hlin.
      { unfold cell_locs. apply list_elem_of_omap. now exists r. }
      pose proof (inner_loop_grows _ _ _ _ _ Hin l) as [E1|[Hin1 _]]; [exact E1|].
      exfalso. exact (Hdisj l Hin1 Hlin).
Qed.

(** *** The run, cut at any point *)

(** The whole run goes through that point: it is the run up to it, then the
    remaining products of the row, then the remaining rows. *)
Lemma find_matches_upto cols pre r post k h :
  find_matches tbl search valid {| label_columns := cols; rows := pre ++ r :: post |} h =
  (flare <- run_upto tbl search valid pre r k ;;
   for_each (check_product tbl) flare (drop k (hits_of search valid r)) ;;;
   for_each (fun _ r' => match_flare tbl search valid r') tt post)%py h.
Proof.
  unfold find_matches, run_upto. simpl. rewrite for_each_app. unfold bind.
  destruct (for_each _ tt pre h) as [h1 [e|[]]]; [reflexivity|].
  rewrite for_each_cons, match_flare_eq.
  rewrite <- (take_drop k (hits_of search valid r)) at 1.
  rewrite for_each_app. unfold bind.
  destruct (for_each _ (rec r) (take k _) h1) as [h2 [e|flare]]; [reflexivity|].
  destruct (for_each _ flare (drop k _) h2) as [h3 [e|flare']]; reflexivity.
Qed.

Lemma run_upto_grows pre r post k h h' out :
  NoDup (cell_locs (pre ++ r :: post)) ->
  run_upto tbl search valid pre r k h = (h', out) ->
  grows (cell_locs (pre ++ r :: post)) h h'.
Proof.
  intros Hnd. unfold run_upto, bind.
  destruct (for_each _ tt pre h) as [h1 o1] eqn:Hpre.
  rewrite cell_locs_app, cell_locs_cons in Hnd |- *.
  pose proof Hnd as Hnd'. apply NoDup_app in Hnd' as (Hpre_nd & Hdisj & _).
  apply find_matches_grows in Hpre; [|exact Hpre_nd].
  assert (forall ls, grows (cell_locs [r]) h1 h' ->
            grows (cell_locs pre ++ cell_locs [r] ++ ls) h h') as Hstep.
  { intros ls Hg l.
    destruct (grows_trans (cell_locs pre) (cell_locs [r]) h h1 h') with (l := l)
      as [E|[Hin Hs]]; [| exact Hpre | exact Hg | now left |].
    - intros l0 H1 H2. apply (Hdisj l0 H1). apply elem_of_app. now left.
    - right. split; [|exact Hs].
      rewrite app_assoc. apply elem_of_app. now left. }
  destruct o1 as [e|[]].
  - intros [= <- <-]. auto with store.
  - intros Hin. apply Hstep. exact (inner_loop_grows _ _ _ _ _ Hin).
Qed.

End Loop.

(** ** The matching loop: claims *)

(** The scenario of two passing products, cut after none, one and two of
    them: the flare has no sector, then sector 1, then still sector 1 (the
    second product has raised). *)
Example run_upto_two_passing_products :
  let h0 := fst (load_flares [flare_at 109]) in
  let r := read_row 0 (flare_at 109) in
  map (fun k => matched_sectors
                  (fst (run_upto sectors_1_2 (always [1; 2]%Z) {[1%Z; 2%Z]} [] r k h0))
                  (rec r))
      [0; 1; 2]%nat
  = [[]; [1%Z]; [1%Z]].
Proof. by_evaluation. Qed.

(** C1.  The scenario of the specification: sector table
    [{(1, 100, 110), (2, 108, 120)}], one flare at 109, products [[1, 2]].
    Both windows contain 109.  The run appends 1, rebinds the copy's cell to
    the [None] that [append] returns, and raises [AttributeError] at the
    second product: it does not complete, and the flare is left with [[1]],
    not [[1, 2]]. *)
Theorem C1_two_passing_products_raise :
  let h0 := fst (load_flares [flare_at 109]) in
  let df := snd (load_flares [flare_at 109]) in
  let run := find_matches sectors_1_2 (always [1; 2]%Z)
               (valid_sectors sectors_1_2 (109, 109)%Q) df h0 in
  in_window sectors_1_2 109 1 = true /\ in_window sectors_1_2 109 2 = true /\
  run = (<[0%nat := [1%Z]]> ∅, inl AttributeError) /\
  map (fun r => matched_sectors (fst run) (rec r)) (rows df) = [[1%Z]].
Proof. repeat split; by_evaluation. Qed.

(** C2.  On the same input the second product has its sector in the table,
    with the window (108, 120) that strictly contains 109, and is not
    recorded: the copy's cell is [None] by then and the append raises. *)
Theorem C2_passing_product_not_recorded :
  let h0 := fst (load_flares [flare_at 109]) in
  let df := snd (load_flares [flare_at 109]) in
  let run := find_matches sectors_1_2 (always [1; 2]%Z) {[1%Z; 2%Z]} df h0 in
  sector_window sectors_1_2 2 = Some (108, 120)%Q /\
  (108 < 109 < 120)%Q /\
  map (fun r => matched_sectors (fst run) (rec r)) (rows df) = [[1%Z]] /\
  snd run = inl AttributeError.
Proof. repeat split; by_evaluation. Qed.

(** C3, as the specification states it, fails: table [{(1, 100, 110)}], two
    flares at 105, products [[99, 1]] for both.  Sector 99 is not in the
    table.  The run raises [IndexError] at the first product of the first
    flare; the product 1 of that flare is not looked at (its window contains
    105, and nothing is recorded), and the second flare is not reached. *)
Lemma C3_unknown_sector_aborts_batch :
  let tbl := [ {| Sector := 1; Sector_Start := 100; Sector_End := 110 |} ] in
  let h0 := fst (load_flares [flare_at 105; flare_at 105]) in
  let df := snd (load_flares [flare_at 105; flare_at 105]) in
  let run := find_matches tbl (always [99; 1]%Z) {[1%Z]} df h0 in
  sector_window tbl 99 = None /\
  in_window tbl 105 1 = true /\
  snd run = inl IndexError /\
  map (fun r => matched_sectors (fst run) (rec r)) (rows df) = [[]; []].
Proof. repeat split; by_evaluation. Qed.

(** C3, amended.  A product whose sector is not in the table stops the run
    with [IndexError]: the store is what it was just before that product, and
    neither the later products of the flare nor the later flares are
    processed. *)
Theorem C3_unknown_sector_stops_run
    tbl search valid cols pre r post before sector after h h1 h2 flare :
  (forall w, w ∈ tbl -> Sector w <> sector) ->
  hits_of search valid r = before ++ sector :: after ->
  find_matches tbl search valid {| label_columns := cols; rows := pre |} h = (h1, inr tt) ->
  for_each (check_product tbl) (rec r) before h1 = (h2, inr flare) ->
  find_matches tbl search valid {| label_columns := cols; rows := pre ++ r :: post |} h
  = (h2, inl IndexError).
Proof.
  intros Habs Hhits Hpre Hbefore.
  apply sector_window_None in Habs.
  rewrite (find_matches_upto _ _ _ _ _ _ _ (length before)).
  unfold run_upto, bind. unfold find_matches in Hpre. simpl in Hpre.
  rewrite Hpre, Hhits.
  rewrite take_app_length, Hbefore, drop_app_length.
  rewrite for_each_cons, check_product_cases, Habs. reflexivity.
Qed.

Lemma C3_unknown_sector_stops_run_witness :
  let tbl := [ {| Sector := 1; Sector_Start := 100; Sector_End := 110 |} ] in
  find_matches tbl (at_origin [1; 99; 1] [1])%Z {[1%Z]}
    {| label_columns := [];
       rows := [read_row 0 (far_flare_at 105); read_row 1 (flare_at 105);
                read_row 2 (far_flare_at 105)] |}
    (fresh_lists 3)
  = (<[1%nat := [1%Z]]> (<[0%nat := [1%Z]]> (fresh_lists 3)), inl IndexError).
Proof.
  intros tbl.
  apply (C3_unknown_sector_stops_run tbl (at_origin [1; 99; 1] [1])%Z {[1%Z]} []
           [read_row 0 (far_flare_at 105)] (read_row 1 (flare_at 105))
           [read_row 2 (far_flare_at 105)] [1%Z] 99%Z [1%Z]
           (fresh_lists 3) (<[0%nat := [1%Z]]> (fresh_lists 3))
           (<[1%nat := [1%Z]]> (<[0%nat := [1%Z]]> (fresh_lists 3)))
           (set_sectors (rec (read_row 1 (flare_at 105))) PyNone)).
  - intros w Hw. apply list_elem_of_singleton in Hw. subst w. simpl. lia.
  - reflexivity.
  - vm_compute. reflexivity.
  - vm_compute. reflexivity.
Defined.

(** C9.  A run over the loaded catalogue that gets through without raising
    leaves at most one sector with each flare: the products of the flare that
    pass the time test, of which there is then at most one.  The mechanism:
    a passing product appends and rebinds the copy's cell to [None], the
    return value of [append]; with [None] in the cell a further passing
    product raises [AttributeError] and appends nothing. *)
Theorem C9_completed_run_at_most_one tbl search valid csv h' :
  find_matches tbl search valid (snd (load_flares csv)) (fst (load_flares csv))
  = (h', inr tt) ->
  (forall r, r ∈ rows (snd (load_flares csv)) ->
     matched_sectors h' (rec r)
     = List.filter (in_window tbl (mjd (rec r))) (hits_of search valid r) /\
     (length (matched_sectors h' (rec r)) <= 1)%nat) /\
  (forall flare l sector h,
     sectors flare = PyList l -> in_window tbl (mjd flare) sector = true ->
     check_product tbl flare sector h
     = (alter (fun xs => xs ++ [sector]) l h, inr (set_sectors flare PyNone)) /\
     forall sector' h2,
       in_window tbl (mjd flare) sector' = true ->
       check_product tbl (set_sectors flare PyNone) sector' h2 = (h2, inl AttributeError)).
Proof.
  intros Hrun. split.
  - intros r Hr. rewrite load_flares_eq in Hrun, Hr. simpl in Hrun, Hr.
    unfold find_matches in Hrun. simpl in Hrun.
    destruct (loaded_row _ _ Hr) as (i & c & Hi & Er).
    assert (cell_loc r = Some i) as Hc by (now subst r).
    destruct (find_matches_done tbl search valid _ _ _
                ltac:(rewrite cell_locs_loaded; apply NoDup_seq) Hrun r i Hr Hc)
      as [E Hlen].
    apply lookup_lt_Some in Hi.
    assert (matched_sectors h' (rec r)
            = List.filter (in_window tbl (mjd (rec r))) (hits_of search valid r)) as Hm.
    { unfold matched_sectors. subst r. simpl in *. rewrite E, fresh_lists_lookup.
      destruct (decide (i < length csv)%nat); [reflexivity | lia]. }
    rewrite Hm. split; [reflexivity | exact Hlen].
  - intros flare l sector h Hl Hin. split.
    + rewrite check_product_cases.
      destruct (proj1 (in_window_strict _ _ _) Hin) as (a & b & -> & _).
      now rewrite Hin, Hl.
    + intros sector' h2 Hin'. rewrite check_product_cases. simpl.
      destruct (proj1 (in_window_strict _ _ _) Hin') as (a & b & -> & _).
      now rewrite Hin'.
Qed.

Lemma C9_completed_run_at_most_one_witness :
  matched_sectors (<[0%nat := [1%Z]]> ∅) (rec (read_row 0 (flare_at 105))) = [1%Z] /\
  (length (matched_sectors (<[0%nat := [1%Z]]> ∅) (rec (read_row 0 (flare_at 105)))) <= 1)%nat.
Proof.
  refine (proj1 (C9_completed_run_at_most_one sectors_1_2 (always [1; 2]%Z)
                   {[1%Z; 2%Z]} [flare_at 105] (<[0%nat := [1%Z]]> (∅ : heap)) _) _ _).
  - vm_compute. reflexivity.
  - vm_compute. left.
Defined.

(** C6.  After loading, every flare has an empty list.  At every point of a
    matching run over the loaded catalogue (the flares [pre] done and [k]
    products of the next flare [r] looked at), and at its end, whether it
    gets through or raises, the store is the loaded store but for one
    appended element in some of the flares' lists ([grows]): a list is the
    empty list it was created as, or that list with one sector appended, and
    so never holds a sector twice.  Only [append], called from the loop,
    writes to the store; the candidate filter and the result cell do not
    return a store. *)
Theorem C6_matched_sectors_no_duplicates tbl search valid csv :
  let h0 := fst (load_flares csv) in
  let df := snd (load_flares csv) in
  (forall r, r ∈ rows df -> matched_sectors h0 (rec r) = []) /\
  (forall pre r post k,
     rows df = pre ++ r :: post ->
     let h := fst (run_upto tbl search valid pre r k h0) in
     grows (cell_locs (rows df)) h0 h /\
     forall r', r' ∈ rows df ->
       NoDup (matched_sectors h (rec r')) /\
       (matched_sectors h (rec r') = [] \/ exists s, matched_sectors h (rec r') = [s])) /\
  (let h := fst (find_matches tbl search valid df h0) in
   grows (cell_locs (rows df)) h0 h /\
   forall r', r' ∈ rows df ->
     NoDup (matched_sectors h (rec r')) /\
     (matched_sectors h (rec r') = [] \/ exists s, matched_sectors h (rec r') = [s])).
Proof.
  intros h0 df. subst h0 df. rewrite load_flares_eq. simpl.
  assert (forall h, grows (cell_locs (imap read_row csv)) (fresh_lists (length csv)) h ->
            forall r', r' ∈ imap read_row csv ->
              NoDup (matched_sectors h (rec r')) /\
              (matched_sectors h (rec r') = [] \/
               exists s, matched_sectors h (rec r') = [s])) as Hrows.
  { intros h Hg r' Hr'. rewrite cell_locs_loaded in Hg.
    pose proof (loaded_grows_cases csv h r' Hg Hr') as H. split; [|exact H].
    destruct H as [->|[s ->]]; [constructor | apply NoDup_singleton]. }
  assert (NoDup (cell_locs (imap read_row csv))) as Hnd
      by (rewrite cell_locs_loaded; apply NoDup_seq).
  split; [|split].
  - intros r Hr. destruct (loaded_row _ _ Hr) as (i & c & Hi & ->).
    apply lookup_lt_Some in Hi. unfold matched_sectors. simpl.
    rewrite fresh_lists_lookup. destruct (decide (i < length csv)%nat); [reflexivity | lia].
  - intros pre r post k Hsplit.
    destruct (run_upto tbl search valid pre r k (fresh_lists (length csv)))
      as [h out] eqn:Hrun.
    simpl. rewrite Hsplit in Hnd.
    pose proof (run_upto_grows _ _ _ _ _ _ _ _ _ _ Hnd Hrun) as Hg.
    rewrite <- Hsplit in Hg. split; [exact Hg | exact (Hrows h Hg)].
  - unfold find_matches. simpl.
    destruct (for_each _ tt (imap read_row csv) (fresh_lists (length csv)))
      as [h out] eqn:Hrun.
    simpl. pose proof (find_matches_grows _ _ _ _ _ _ _ Hnd Hrun) as Hg.
    split; [exact Hg | exact (Hrows h Hg)].
Qed.

(** ** The candidate sectors: claims *)

Lemma valid_sectors_spec tbl (b : Q * Q) s :
  s ∈ valid_sectors tbl b <->
  exists w, w ∈ tbl /\ Sector w = s /\
            (Sector_Start w <= snd b)%Q /\ (Sector_End w >= fst b)%Q.
Proof.
  unfold valid_sectors. rewrite elem_of_list_to_set, list_elem_of_In, in_map_iff.
  split.
  - intros (w & Hs & Hw). apply filter_In in Hw as [Hw Hb].
    apply andb_true_iff in Hb as [H1 H2].
    exists w. rewrite list_elem_of_In. repeat split; try assumption.
    + now apply Qle_bool_iff.
    + now apply Qle_bool_iff.
  - intros (w & Hw & Hs & H1 & H2). exists w. split; [exact Hs|].
    apply filter_In. split; [now apply list_elem_of_In|].
    apply andb_true_iff. split; now apply Qle_bool_iff.
Qed.

(** C4.  For a catalogue with a first row [r] and further rows [rs], the
    candidate set holds exactly the sectors of the table whose window starts
    no later than the time of the last row and ends no earlier than the time
    of the first row, in the order the rows have; the rows between the two
    play no part, and two frames with the same first and last times give the
    same set. *)
Theorem C4_candidate_sectors_first_last tbl cols r rs :
  let df := {| label_columns := cols; rows := r :: rs |} in
  let t_min := mjd (rec r) in
  let t_max := mjd (rec (List.last rs r)) in
  (exists candidates,
     candidate_sectors tbl df = inr candidates /\
     forall s, s ∈ candidates <->
               exists w, w ∈ tbl /\ Sector w = s /\
                         (Sector_Start w <= t_max)%Q /\ (Sector_End w >= t_min)%Q) /\
  (forall df', spt_t_bounds df' = inr (t_min, t_max) ->
               candidate_sectors tbl df' = candidate_sectors tbl df).
Proof.
  intros df t_min t_max. split.
  - exists (valid_sectors tbl (t_min, t_max)). split; [reflexivity|].
    intros s. apply valid_sectors_spec.
  - intros df' Hb. unfold candidate_sectors. now rewrite Hb.
Qed.

(** The bounds are the first and the last time, not the least and the
    greatest: with times 5, 1, 9, 3 a sector open from 0 to 2 overlaps the
    span 1..9 of the catalogue and is no candidate. *)
Example candidate_sectors_unsorted :
  candidate_sectors [ {| Sector := 7; Sector_Start := 0; Sector_End := 2 |} ]
    (snd (load_flares [flare_at 5; flare_at 1; flare_at 9; flare_at 3]))
  = inr ∅.
Proof. by_evaluation. Qed.

(** ** The loader: claims *)

(** The loaded frame has the times in the order of the file. *)
Lemma load_flares_order csv :
  map (fun r => mjd (rec r)) (rows (snd (load_flares csv))) = map csv_start_time csv.
Proof.
  rewrite load_flares_eq. simpl.
  assert (forall k, map (fun r => mjd (rec r)) (imap (fun i c => read_row (k + i) c) csv)
                    = map csv_start_time csv) as H.
  { induction csv as [|c csv IH]; intros k; [reflexivity|].
    simpl. f_equal. rewrite <- (IH (S k)). f_equal.
    apply imap_ext. intros i x _. simpl. f_equal. lia. }
  exact (H 0%nat).
Qed.

(** C7.  A catalogue file with a flare at 2 followed by a flare at 1: the
    loader hands on the rows in the order of the file, 2 before 1.  The
    sorted frame exists ([sort_values] computes it) and is not the one
    handed on. *)
Theorem C7_loaded_order_is_file_order :
  let df := snd (load_flares [flare_at 2; flare_at 1]) in
  map (fun r => mjd (rec r)) (rows df) = [2; 1]%Q /\
  ~ (2 <= 1)%Q /\
  map (fun r => mjd (rec r)) (rows (sort_values_mjd df)) = [1; 2]%Q.
Proof.
  repeat split; try by_evaluation.
  intros H. vm_compute in H. now apply H.
Qed.

(** C10.  The sector table before matching holds exactly the aggregated rows
    with a start time: a row without one is left out, and nothing raises (the
    function is total); the end time is not looked at, so a row with a start
    and no end stays. *)
Theorem C10_dropna_start_only tbl :
  (forall a, a ∈ aggregate_sectors tbl <->
             a ∈ groupby_agg tbl /\ is_Some (agg_Start a)) /\
  (forall a, a ∈ groupby_agg tbl -> agg_Start a = None -> ~ a ∈ aggregate_sectors tbl) /\
  (forall a s, a ∈ groupby_agg tbl -> agg_Start a = Some s -> agg_End a = None ->
               a ∈ aggregate_sectors tbl).
Proof.
  assert (forall a, a ∈ aggregate_sectors tbl <->
                    a ∈ groupby_agg tbl /\ is_Some (agg_Start a)) as Hiff.
  { intros a. unfold aggregate_sectors, dropna_Sector_Start.
    rewrite !list_elem_of_In, !filter_In, !bool_decide_eq_true. tauto. }
  split; [exact Hiff|]. split.
  - intros a Ha Hs Hin. apply Hiff in Hin as [_ [s Hs']]. congruence.
  - intros a s Ha Hs _. apply Hiff. split; [exact Ha|]. rewrite Hs. now exists s.
Qed.

(** A sector with a start and no end stays, a sector with an end and no
    start goes. *)
Example dropna_keeps_missing_end :
  aggregate_sectors
    [ {| orbit_Sector := Some 5%Z; Start_of_Orbit := Some 1%Q; End_of_Orbit := None |};
      {| orbit_Sector := Some 6%Z; Start_of_Orbit := None; End_of_Orbit := Some 2%Q |} ]
  = [ {| agg_Sector := 5; agg_Start := Some 1%Q; agg_End := None |} ].
Proof. by_evaluation. Qed.

(** ** The aggregation: claims *)

Lemma elem_of_group k tbl o :
  o ∈ group k tbl <-> o ∈ tbl /\ orbit_Sector o = Some k.
Proof.
  unfold group. rewrite !list_elem_of_In, filter_In, bool_decide_eq_true. tauto.
Qed.

Lemma elem_of_group_keys tbl k :
  k ∈ group_keys tbl <-> exists o, o ∈ tbl /\ orbit_Sector o = Some k.
Proof.
  unfold group_keys. rewrite merge_sort_Permutation, elem_of_remove_dups, list_elem_of_omap.
  reflexivity.
Qed.

Lemma NoDup_group_keys tbl : NoDup (group_keys tbl).
Proof.
  unfold group_keys. rewrite merge_sort_Permutation. apply NoDup_remove_dups.
Qed.

Lemma groupby_agg_keys tbl : map agg_Sector (groupby_agg tbl) = group_keys tbl.
Proof.
  unfold groupby_agg. rewrite map_map. simpl. apply map_id.
Qed.

(** *** The aggregation as the cell runs it, on the texts *)

Lemma text_min_cases (x y : string) :
  (text_min x y = x /\ String.leb x y = true) \/
  (text_min x y = y /\ String.leb y x = true).
Proof.
  unfold text_min. destruct (String.leb x y) eqn:E; [now left|].
  right. split; [reflexivity|]. destruct (String.leb_total x y) as [H|H]; congruence.
Qed.

Lemma text_max_cases (x y : string) :
  (text_max x y = y /\ String.leb x y = true) \/
  (text_max x y = x /\ String.leb y x = true).
Proof.
  unfold text_max. destruct (String.leb x y) eqn:E; [now left|].
  right. split; [reflexivity|]. destruct (String.leb_total x y) as [H|H]; congruence.
Qed.

Lemma leb_refl (x : string) : String.leb x x = true.
Proof. apply Is_true_true. change (String.le x x). reflexivity. Qed.

Lemma leb_trans (x y z : string) :
  String.leb x y = true -> String.leb y z = true -> String.leb x z = true.
Proof.
  intros H1 H2. apply Is_true_true. apply Is_true_true in H1, H2.
  change (String.le x z). now transitivity y.
Qed.

Lemma foldl_text_min x xs :
  foldl text_min x xs ∈ x :: xs /\
  forall y, y ∈ x :: xs -> String.leb (foldl text_min x xs) y = true.
Proof.
  revert x. induction xs as [|z xs IH]; intros x; simpl.
  - split; [left|]. intros y Hy. apply list_elem_of_singleton in Hy as ->. apply leb_refl.
  - destruct (IH (text_min x z)) as [Hin Hle]. split.
    + apply elem_of_cons in Hin as [Hin|Hin]; [|now do 2 right].
      rewrite Hin. destruct (text_min_cases x z) as [[-> _]|[-> _]]; [left | right; left].
    + intros y Hy.
      pose proof (Hle (text_min x z) ltac:(left)) as Hm.
      apply elem_of_cons in Hy as [->|Hy]; [|apply elem_of_cons in Hy as [->|Hy]].
      * eapply leb_trans; [exact Hm|].
        destruct (text_min_cases x z) as [[-> _]|[-> H]]; [apply leb_refl | exact H].
      * eapply leb_trans; [exact Hm|].
        destruct (text_min_cases x z) as [[-> H]|[-> _]]; [exact H | apply leb_refl].
      * apply Hle. now right.
Qed.

Lemma foldl_text_max x xs :
  foldl text_max x xs ∈ x :: xs /\
  forall y, y ∈ x :: xs -> String.leb y (foldl text_max x xs) = true.
Proof.
  revert x. induction xs as [|z xs IH]; intros x; simpl.
  - split; [left|]. intros y Hy. apply list_elem_of_singleton in Hy as ->. apply leb_refl.
  - destruct (IH (text_max x z)) as [Hin Hle]. split.
    + apply elem_of_cons in Hin as [Hin|Hin]; [|now do 2 right].
      rewrite Hin. destruct (text_max_cases x z) as [[-> _]|[-> _]]; [right; left | left].
    + intros y Hy.
      pose proof (Hle (text_max x z) ltac:(left)) as Hm.
      apply elem_of_cons in Hy as [->|Hy]; [|apply elem_of_cons in Hy as [->|Hy]].
      * eapply leb_trans; [|exact Hm].
        destruct (text_max_cases x z) as [[-> H]|[-> _]]; [exact H | apply leb_refl].
      * eapply leb_trans; [|exact Hm].
        destruct (text_max_cases x z) as [[-> _]|[-> H]]; [apply leb_refl | exact H].
      * apply Hle. now right.
Qed.

(** A column either has no missing value, and [omap id] has all of it, or
    has one. *)
Lemma omap_id_length (col : list (option string)) :
  (length (omap id col) = length col /\ col = map Some (omap id col)) \/
  (length (omap id col) < length col /\ None ∈ col)%nat.
Proof.
  induction col as [|[x|] col IH].
  - now left.
  - change (omap id (Some x :: col)) with (x :: omap id col). simpl length. simpl map.
    destruct IH as [[Hl He]|[Hl Hn]].
    + left. split; [now rewrite Hl | now rewrite <- He].
    + right. split; [lia | now right].
  - change (omap id (None :: col)) with (omap id col). simpl length.
    right. split; [|left].
    destruct IH as [[Hl _]|[Hl _]]; lia.
Qed.

(** The three outcomes of "min" or "max" on the column of a group. *)
Lemma agg_text_cases op (col : list (option string)) :
  (agg_text op col = inr None /\ forall c, c ∈ col -> c = None) \/
  (exists x xs, agg_text op col = inr (Some (foldl op x xs)) /\ col = map Some (x :: xs)) \/
  (agg_text op col = inl TypeError /\ None ∈ col /\ exists s, Some s ∈ col).
Proof.
  unfold agg_text. destruct (omap id col) as [|x xs] eqn:E.
  - left. split; [reflexivity|]. intros [s|] Hc; [|reflexivity].
    assert (s ∈ omap id col) as Hs by (apply list_elem_of_omap; now exists (Some s)).
    rewrite E in Hs. inversion Hs.
  - right. destruct (omap_id_length col) as [[Hl He]|[Hl Hn]]; rewrite E in Hl.
    + left. exists x, xs. rewrite Hl, Nat.eqb_refl. rewrite E in He. now split.
    + right. destruct (Nat.eqb_spec (length (x :: xs)) (length col)) as [Heq|_]; [lia|].
      split; [reflexivity|]. split; [exact Hn|]. exists x.
      assert (x ∈ omap id col) as Hx by (rewrite E; left).
      apply list_elem_of_omap in Hx as ([y|] & Hy & Hid); simpl in Hid; congruence.
Qed.

Lemma elem_of_line_group k tbl o :
  o ∈ line_group k tbl <-> o ∈ tbl /\ line_Sector o = Some k.
Proof.
  unfold line_group. rewrite !list_elem_of_In, filter_In, bool_decide_eq_true. tauto.
Qed.

Lemma elem_of_line_keys tbl k :
  k ∈ line_keys tbl <-> exists o, o ∈ tbl /\ line_Sector o = Some k.
Proof.
  unfold line_keys. rewrite merge_sort_Permutation, elem_of_remove_dups, list_elem_of_omap.
  reflexivity.
Qed.

Lemma NoDup_line_keys tbl : NoDup (line_keys tbl).
Proof.
  unfold line_keys. rewrite merge_sort_Permutation. apply NoDup_remove_dups.
Qed.

Lemma mixed_group_column tbl col k :
  mixed_group tbl col k <->
  None ∈ map col (line_group k tbl) /\ exists s, Some s ∈ map col (line_group k tbl).
Proof.
  unfold mixed_group. split.
  - intros [(o & Ho & Hk & Hc) (o' & s & Ho' & Hk' & Hc')]. split.
    + rewrite <- Hc. apply list_elem_of_fmap_2. now apply elem_of_line_group.
    + exists s. rewrite <- Hc'. apply list_elem_of_fmap_2. now apply elem_of_line_group.
  - intros [Hn (s & Hs)].
    apply list_elem_of_fmap in Hn as (o & Hc & Ho). apply elem_of_line_group in Ho as [Ho Hk].
    apply list_elem_of_fmap in Hs as (o' & Hc' & Ho'). apply elem_of_line_group in Ho' as [Ho' Hk'].
    split; [now exists o | now exists o', s].
Qed.

(** What one group's "min" gives. *)
Lemma agg_text_min_group tbl col k :
  (agg_text text_min (map col (line_group k tbl)) = inl TypeError /\ mixed_group tbl col k) \/
  (exists m, agg_text text_min (map col (line_group k tbl)) = inr m /\
             least_text tbl col k m /\ ~ mixed_group tbl col k).
Proof.
  destruct (agg_text_cases text_min (map col (line_group k tbl)))
    as [[Hr Hall]|[(x & xs & Hr & Hcol)|(Hr & Hn & Hs)]].
  - right. exists None. split; [exact Hr|]. split.
    + intros o Ho Hk. apply Hall, list_elem_of_fmap_2. now apply elem_of_line_group.
    + rewrite mixed_group_column. intros [_ (s & Hs)]. apply Hall in Hs. discriminate.
  - right. exists (Some (foldl text_min x xs)). split; [exact Hr|].
    destruct (foldl_text_min x xs) as [Hin Hle]. split; [split|].
    + assert (Some (foldl text_min x xs) ∈ map col (line_group k tbl)) as Hm
          by (rewrite Hcol; now apply list_elem_of_fmap_2).
      apply list_elem_of_fmap in Hm as (o & Hc & Ho). apply elem_of_line_group in Ho as [Ho Hk].
      now exists o.
    + intros o y Ho Hk Hy. apply Hle.
      assert (Some y ∈ map col (line_group k tbl)) as Hm
          by (rewrite <- Hy; apply list_elem_of_fmap_2; now apply elem_of_line_group).
      rewrite Hcol in Hm. apply list_elem_of_fmap in Hm as (y' & [= ->] & Hy'). exact Hy'.
    + rewrite mixed_group_column, Hcol. intros [Hn _].
      apply list_elem_of_fmap in Hn as (y & Hy & _). discriminate.
  - left. split; [exact Hr|]. now apply mixed_group_column.
Qed.

(** What one group's "max" gives. *)
Lemma agg_text_max_group tbl col k :
  (agg_text text_max (map col (line_group k tbl)) = inl TypeError /\ mixed_group tbl col k) \/
  (exists m, agg_text text_max (map col (line_group k tbl)) = inr m /\
             greatest_text tbl col k m /\ ~ mixed_group tbl col k).
Proof.
  destruct (agg_text_cases text_max (map col (line_group k tbl)))
    as [[Hr Hall]|[(x & xs & Hr & Hcol)|(Hr & Hn & Hs)]].
  - right. exists None. split; [exact Hr|]. split.
    + intros o Ho Hk. apply Hall, list_elem_of_fmap_2. now apply elem_of_line_group.
    + rewrite mixed_group_column. intros [_ (s & Hs)]. apply Hall in Hs. discriminate.
  - right. exists (Some (foldl text_max x xs)). split; [exact Hr|].
    destruct (foldl_text_max x xs) as [Hin Hle]. split; [split|].
    + assert (Some (foldl text_max x xs) ∈ map col (line_group k tbl)) as Hm
          by (rewrite Hcol; now apply list_elem_of_fmap_2).
      apply list_elem_of_fmap in Hm as (o & Hc & Ho). apply elem_of_line_group in Ho as [Ho Hk].
      now exists o.
    + intros o y Ho Hk Hy. apply Hle.
      assert (Some y ∈ map col (line_group k tbl)) as Hm
          by (rewrite <- Hy; apply list_elem_of_fmap_2; now apply elem_of_line_group).
      rewrite Hcol in Hm. apply list_elem_of_fmap in Hm as (y' & [= ->] & Hy'). exact Hy'.
    + rewrite mixed_group_column, Hcol. intros [Hn _].
      apply list_elem_of_fmap in Hn as (y & Hy & _). discriminate.
  - left. split; [exact Hr|]. now apply mixed_group_column.
Qed.

(** The aggregation over a list of keys: it raises [TypeError], and one of
    the keys has a mixed group, or it gives one row for each key, in the
    order of the keys, and no key has a mixed group. *)
Lemma agg_groups_cases tbl ks :
  (agg_groups tbl ks = inl TypeError /\
   exists k, k ∈ ks /\ (mixed_group tbl line_Start k \/ mixed_group tbl line_End k)) \/
  (exists agg, agg_groups tbl ks = inr agg /\
     map text_Sector agg = ks /\
     (forall a, a ∈ agg ->
        least_text tbl line_Start (text_Sector a) (text_Start a) /\
        greatest_text tbl line_End (text_Sector a) (text_End a)) /\
     (forall k, k ∈ ks -> ~ mixed_group tbl line_Start k /\ ~ mixed_group tbl line_End k)).
Proof.
  induction ks as [|k ks IH]; simpl.
  - right. exists []. split; [reflexivity|]. split; [reflexivity|].
    split; intros x Hx; inversion Hx.
  - destruct (agg_text_min_group tbl line_Start k) as [[-> Hm]|(s & -> & Hs & Hns)].
    { left. split; [reflexivity|]. exists k. split; [left | now left]. }
    destruct (agg_text_max_group tbl line_End k) as [[-> Hm]|(e & -> & He & Hne)].
    { left. split; [reflexivity|]. exists k. split; [left | now right]. }
    destruct IH as [[-> (k' & Hk' & Hm)]|(agg & -> & Hkeys & Hrows & Hnone)].
    { left. split; [reflexivity|]. exists k'. split; [now right | exact Hm]. }
    right. eexists. split; [reflexivity|]. split; [simpl; now rewrite Hkeys|]. split.
    + intros a Ha. apply elem_of_cons in Ha as [->|Ha]; [now split | now apply Hrows].
    + intros k' Hk'. apply elem_of_cons in Hk' as [->|Hk']; [now split | now apply Hnone].
Qed.

(** C5, as the specification states it, fails.  Sector 3 with two orbits, the
    second without a start time: no table is made, [TypeError] is raised
    (the column holds a text beside a missing value, which do not compare).
    Sector 7 with an orbit from 28 September and an orbit from 12 October
    2023, the months written without a leading zero: the start of the
    sector's row is that of the October orbit, the later one, which comes
    first in the order of strings. *)
Lemma C5_aggregation_not_min_max :
  groupby_agg_text
    [ {| line_Sector := Some 3%Z; line_Start := Some "2019-01-08 03:59:23";
         line_End := Some "2019-01-21 00:04:23" |};
      {| line_Sector := Some 3%Z; line_Start := None;
         line_End := Some "2019-02-01 14:04:23" |} ]
  = inl TypeError /\
  groupby_agg_text
    [ {| line_Sector := Some 7%Z; line_Start := Some "2023-9-28 00:00:00";
         line_End := Some "2023-10-11 00:00:00" |};
      {| line_Sector := Some 7%Z; line_Start := Some "2023-10-12 00:00:00";
         line_End := Some "2023-10-25 00:00:00" |} ]
  = inr [ {| text_Sector := 7; text_Start := Some "2023-10-12 00:00:00";
             text_End := Some "2023-10-25 00:00:00" |} ].
Proof. split; by_evaluation. Qed.

(** C5, amended.  The aggregation raises [TypeError] exactly when some sector
    has, among its orbits, a start beside a missing start or an end beside
    a missing end, and raises nothing else.  Otherwise it makes a table with
    one row for each sector number of the orbit file and no other row, by
    ascending sector number; the start of that row is the first of the
    sector's orbit starts and its end the last of the sector's orbit ends
    in the order of strings (missing when all of them are).  Where the
    reading of the texts as instants goes with the order of strings, these
    are the least start and the greatest end. *)
Theorem C5_one_row_per_sector_text_min_max tbl :
  (groupby_agg_text tbl = inl TypeError <->
   exists k, mixed_group tbl line_Start k \/ mixed_group tbl line_End k) /\
  (forall e, groupby_agg_text tbl = inl e -> e = TypeError) /\
  ((forall k, ~ mixed_group tbl line_Start k /\ ~ mixed_group tbl line_End k) ->
   exists agg, groupby_agg_text tbl = inr agg) /\
  (forall agg, groupby_agg_text tbl = inr agg ->
     NoDup (map text_Sector agg) /\
     Sorted Z.le (map text_Sector agg) /\
     (forall k, k ∈ map text_Sector agg <->
                exists o, o ∈ tbl /\ line_Sector o = Some k) /\
     (forall a, a ∈ agg ->
        least_text tbl line_Start (text_Sector a) (text_Start a) /\
        greatest_text tbl line_End (text_Sector a) (text_End a)) /\
     (forall (t : string -> Q) a x o y, a ∈ agg ->
        reads_in_text_order t tbl line_Start (text_Sector a) ->
        text_Start a = Some x ->
        o ∈ tbl -> line_Sector o = Some (text_Sector a) -> line_Start o = Some y ->
        (t x <= t y)%Q) /\
     (forall (t : string -> Q) a x o y, a ∈ agg ->
        reads_in_text_order t tbl line_End (text_Sector a) ->
        text_End a = Some x ->
        o ∈ tbl -> line_Sector o = Some (text_Sector a) -> line_End o = Some y ->
        (t y <= t x)%Q)).
Proof.
  assert (forall k, mixed_group tbl line_Start k \/ mixed_group tbl line_End k ->
                    k ∈ line_keys tbl) as Hkey.
  { intros k [[(o & Ho & Hk & _) _]|[(o & Ho & Hk & _) _]];
      apply elem_of_line_keys; now exists o. }
  unfold groupby_agg_text.
  destruct (agg_groups_cases tbl (line_keys tbl))
    as [[Hr (k & Hk & Hm)]|(agg & Hr & Hkeys & Hrows & Hnone)]; rewrite Hr.
  - split; [split; [intros _; now exists k | reflexivity]|].
    split; [now intros e [= <-]|]. split; [|intros agg [=]].
    intros Hno. destruct (Hno k) as [H1 H2]. tauto.
  - split; [split; [intros [=]|]|].
    { intros (k & Hm). destruct (Hnone k (Hkey k Hm)) as [H1 H2]. tauto. }
    split; [intros e [=]|]. split; [intros _; now exists agg|].
    intros agg' [= <-]. rewrite Hkeys.
    split; [apply NoDup_line_keys|].
    split; [apply (Sorted_merge_sort Z.le)|].
    split; [apply elem_of_line_keys|].
    split; [exact Hrows|]. split.
    + intros t a x o y Ha Ht Hx Ho Hk Hy.
      destruct (Hrows a Ha) as [Hs _]. rewrite Hx in Hs. destruct Hs as [(o' & Ho' & Hk' & Hx') Hle].
      apply (Ht o' o x y Ho' Ho Hk' Hk Hx' Hy). now apply (Hle o y).
    + intros t a x o y Ha Ht Hx Ho Hk Hy.
      destruct (Hrows a Ha) as [_ He]. rewrite Hx in He. destruct He as [(o' & Ho' & Hk' & Hx') Hle].
      apply (Ht o o' y x Ho Ho' Hk Hk' Hy Hx'). now apply (Hle o y).
Qed.

(** ** The loaded sector table *)

Lemma filter_fmap_sublist {A B} (f : A -> B) (p : A -> bool) (l : list A) :
  sublist (map f (List.filter p l)) (map f l).
Proof.
  induction l as [|x l IH]; simpl; [constructor|].
  destruct (p x); simpl; now constructor.
Qed.

Lemma to_mjd_Sector tbl t :
  Forall2 (fun a w => to_mjd a = Some w) tbl t -> map Sector t = map agg_Sector tbl.
Proof.
  induction 1 as [|a w tbl t Hw _ IH]; [reflexivity|].
  simpl. rewrite IH. f_equal. unfold to_mjd in Hw.
  destruct (agg_Start a), (agg_End a); try discriminate. now injection Hw as <-.
Qed.

(** X16.  In the loaded sector table a sector number has one row, so the
    window the loop reads for the sector of a row (the first row of the
    selection) is that of the row. *)
Lemma load_sectors_window orbits t w :
  load_sectors orbits = Some t -> w ∈ t ->
  NoDup (map Sector t) /\
  sector_window t (Sector w) = Some (Sector_Start w, Sector_End w).
Proof.
  intros Hload Hw. unfold load_sectors in Hload. apply mapM_Some in Hload.
  assert (NoDup (map Sector t)) as Hnd.
  { rewrite (to_mjd_Sector _ _ Hload). unfold aggregate_sectors, dropna_Sector_Start.
    eapply sublist_NoDup; [|apply filter_fmap_sublist].
    eapply sublist_NoDup; [|apply filter_fmap_sublist].
    rewrite groupby_agg_keys. apply NoDup_group_keys. }
  split; [exact Hnd | now apply sector_window_unique].
Qed.

(** ** The result: claims *)

Lemma sectors_mask_lists h rs :
  Forall (fun r => is_Some (cell_loc r)) rs ->
  sectors_mask h rs = inr (map (has_match h) rs).
Proof.
  induction 1 as [|r rs [l Hl] _ IH]; [reflexivity|].
  simpl. rewrite IH. unfold has_match, matched_sectors, cell_loc in *.
  destruct (sectors (rec r)); [discriminate|]. reflexivity.
Qed.

Lemma select_mask {A} (f : A -> bool) (rs : list A) :
  select rs (map f rs) = List.filter f rs.
Proof.
  induction rs as [|r rs IH]; [reflexivity|]. simpl. rewrite IH. reflexivity.
Qed.

Lemma filter_all {A} (f : A -> bool) (rs : list A) :
  Forall (fun r => f r = true) rs -> List.filter f rs = rs.
Proof.
  induction 1 as [|r rs Hr _ IH]; [reflexivity|]. simpl. now rewrite Hr, IH.
Qed.

Lemma Forall_filter_true {A} (f : A -> bool) (rs : list A) :
  Forall (fun r => f r = true) (List.filter f rs).
Proof.
  apply Forall_forall. intros r Hr. apply list_elem_of_In, filter_In in Hr. tauto.
Qed.

Lemma filter_sublist {A} (f : A -> bool) (rs : list A) : sublist (List.filter f rs) rs.
Proof.
  induction rs as [|r rs IH]; simpl; [constructor|].
  destruct (f r); now constructor.
Qed.

Lemma filter_map_rec h rs :
  map rec (List.filter (has_match h) rs)
  = List.filter (fun f => (0 <? length (matched_sectors h f))%nat) (map rec rs).
Proof.
  induction rs as [|r rs IH]; [reflexivity|]. simpl. unfold has_match at 1.
  destruct (0 <? _)%nat; simpl; now rewrite IH.
Qed.

Lemma imap_relabel_rec (k : nat) rs :
  map rec (imap (fun i r => relabel (k + i) r) rs) = map rec rs.
Proof.
  revert k. induction rs as [|r rs IH]; intros k; [reflexivity|].
  simpl. f_equal. rewrite <- (IH (S k)). f_equal.
  apply imap_ext. intros i x _. simpl. f_equal. lia.
Qed.

Lemma imap_relabel_label (k : nat) rs :
  map label (imap (fun i r => relabel (k + i) r) rs) = seq k (length rs).
Proof.
  revert k. induction rs as [|r rs IH]; intros k; [reflexivity|].
  simpl. rewrite Nat.add_0_r. f_equal. rewrite <- (IH (S k)). f_equal.
  apply imap_ext. intros i x _. simpl. f_equal. lia.
Qed.

Lemma map_rec_imap_relabel rs : map rec (imap relabel rs) = map rec rs.
Proof. exact (imap_relabel_rec 0 rs). Qed.

Lemma map_label_imap_relabel rs : map label (imap relabel rs) = seq 0 (length rs).
Proof. exact (imap_relabel_label 0 rs). Qed.

Lemma Forall_imap_relabel (P : FlareRow -> Prop) rs :
  Forall (fun r => P (rec r)) rs ->
  Forall (fun r => P (rec r)) (imap relabel rs).
Proof.
  intros H. apply Forall_forall. intros r Hr.
  apply list_elem_of_lookup in Hr as [i Hi]. rewrite list_lookup_imap in Hi.
  destruct (rs !! i) as [r0|] eqn:E; [|discriminate]. injection Hi as <-. simpl.
  rewrite Forall_forall in H. apply H. apply list_elem_of_lookup. now exists i.
Qed.

(** The result cell on a frame without label columns whose cells hold lists. *)
Lemma spt_tess_candidates_eq h rs :
  Forall (fun r => is_Some (cell_loc r)) rs ->
  spt_tess_candidates h {| label_columns := []; rows := rs |}
  = inr {| label_columns := ["index"];
           rows := imap relabel (List.filter (has_match h) rs) |}.
Proof.
  intros Hl. unfold spt_tess_candidates. simpl.
  rewrite sectors_mask_lists by exact Hl. rewrite select_mask. reflexivity.
Qed.

(** The result cell on its own result. *)
Lemma spt_tess_candidates_again h rs :
  Forall (fun r => is_Some (cell_loc r)) rs ->
  Forall (fun r => has_match h r = true) rs ->
  spt_tess_candidates h {| label_columns := ["index"]; rows := rs |}
  = inr {| label_columns := ["level_0"; "index"]; rows := imap relabel rs |}.
Proof.
  intros Hl Hm. unfold spt_tess_candidates. simpl.
  rewrite sectors_mask_lists by exact Hl.
  rewrite select_mask, filter_all by exact Hm. reflexivity.
Qed.

(** C8, as the specification states it, fails: one flare with the match
    [[1]].  The first application gives a frame with the label column
    [index]; the second, applied to that frame, gives a frame with the label
    columns [level_0] and [index]: not an identical result. *)
Lemma C8_second_application_not_identical :
  let h : heap := <[0%nat := [1%Z]]> ∅ in
  let df := snd (load_flares [flare_at 105]) in
  exists once twice,
    spt_tess_candidates h df = inr once /\
    spt_tess_candidates h once = inr twice /\
    label_columns once = ["index"] /\
    label_columns twice = ["level_0"; "index"] /\
    twice <> once.
Proof.
  intros h df.
  exists {| label_columns := ["index"]; rows := [relabel 0 (read_row 0 (flare_at 105))] |}.
  exists {| label_columns := ["level_0"; "index"];
            rows := [relabel 0 (relabel 0 (read_row 0 (flare_at 105)))] |}.
  repeat split; try by_evaluation. discriminate.
Qed.

(** C8, amended.  Applied to the loaded frame and any store, the result cell
    returns the rows with at least one matched sector, in their order, each
    with the record it had (the cell reads the store and returns none).
    Applied again to its own result, when at least one row was kept, it
    returns the same records in the same order under the same labels, and
    not an identical frame: there is one more label column ([level_0] before
    [index]).  When no row was kept the second application is an empty
    selection: it leaves [index] alone and drops the data columns; after an
    empty catalogue, whose first result has lost them already, it raises
    [KeyError]. *)
Theorem C8_result_is_ordered_filter csv (h : heap) :
  let df := snd (load_flares csv) in
  exists once,
    result_cell h (df, true) = inr (once, match csv with [] => false | _ :: _ => true end) /\
    map rec (rows once)
    = List.filter (fun f => (0 <? length (matched_sectors h f))%nat) (map rec (rows df)) /\
    sublist (map rec (rows once)) (map rec (rows df)) /\
    label_columns once = ["index"] /\
    (rows once <> [] ->
     exists twice,
       result_cell h (once, true) = inr (twice, true) /\
       map rec (rows twice) = map rec (rows once) /\
       map label (rows twice) = map label (rows once) /\
       label_columns twice = ["level_0"; "index"] /\
       twice <> once) /\
    (rows once = [] -> csv <> [] ->
     result_cell h (once, true) = inr ({| label_columns := ["index"]; rows := [] |}, false)) /\
    (csv = [] -> result_cell h (once, false) = inl KeyError).
Proof.
  intros df. subst df. rewrite load_flares_eq. simpl.
  set (kept := List.filter (has_match h) (imap read_row csv)).
  exists {| label_columns := ["index"]; rows := imap relabel kept |}.
  assert (Forall (fun r => is_Some (cell_loc r)) kept) as Hl'.
  { apply Forall_forall. intros r Hr. apply list_elem_of_In, filter_In in Hr as [Hr _].
    apply list_elem_of_In, loaded_row in Hr as (i & c & _ & ->). now exists i. }
  simpl. rewrite (map_rec_imap_relabel kept).
  split; [|split; [apply filter_map_rec|split;
    [unfold kept; rewrite filter_map_rec; apply filter_sublist|split;
      [reflexivity|split; [|split]]]]].
  - destruct csv as [|c csv]; [reflexivity|].
    pose proof (spt_tess_candidates_eq h (imap read_row (c :: csv))) as Heq.
    rewrite Heq; [reflexivity|].
    apply Forall_forall. intros r Hr. apply loaded_row in Hr as (i & c' & _ & ->). now exists i.
  - intros Hne. exists {| label_columns := ["level_0"; "index"];
                          rows := imap relabel (imap relabel kept) |}.
    simpl. destruct (imap relabel kept) as [|r0 rs0] eqn:Ek; [congruence|].
    rewrite <- Ek. rewrite spt_tess_candidates_again.
    + rewrite !map_rec_imap_relabel, !map_label_imap_relabel, length_imap.
      repeat split. discriminate.
    + apply (Forall_imap_relabel
               (fun f => is_Some (cell_loc {| label := 0; saved := []; rec := f |}))).
      exact Hl'.
    + apply (Forall_imap_relabel (fun f => (0 <? length (matched_sectors h f))%nat = true)).
      apply Forall_filter_true.
  - intros Hempty _. simpl. now rewrite Hempty.
  - reflexivity.
Qed.

(** * Further properties *)

(** ** The aperture bit mask *)

Lemma bin_digits_nonempty p : (1 <= length (bin_digits p))%nat.
Proof. destruct p; simpl; rewrite ?length_app; simpl; lia. Qed.

Lemma length_bin_digits p : length (bin_digits p) = Pos.to_nat (Pos.size p).
Proof.
  induction p as [q IH|q IH|]; simpl; [| |reflexivity];
    rewrite length_app, IH; simpl; lia.
Qed.

(** The digit [k] places from the right is bit [k] of the number. *)
Lemma bin_digits_lookup p (k : nat) :
  (k < length (bin_digits p))%nat ->
  bin_digits p !! (length (bin_digits p) - 1 - k)%nat
  = Some (if Z.testbit (Zpos p) (Z.of_nat k) then "1"%char else "0"%char).
Proof.
  revert k. induction p as [q IH|q IH|]; intros k Hk; simpl in *.
  - rewrite length_app in *. simpl in *. destruct k as [|k].
    + rewrite lookup_app_r by lia.
      replace (length (bin_digits q) + 1 - 1 - 0 - length (bin_digits q))%nat with 0%nat by lia.
      reflexivity.
    + rewrite lookup_app_l by lia.
      replace (length (bin_digits q) + 1 - 1 - S k)%nat
        with (length (bin_digits q) - 1 - k)%nat by lia.
      rewrite IH by lia. rewrite Nat2Z.inj_succ, Pos2Z.inj_xI.
      now rewrite Z.testbit_odd_succ by lia.
  - rewrite length_app in *. simpl in *. destruct k as [|k].
    + rewrite lookup_app_r by lia.
      replace (length (bin_digits q) + 1 - 1 - 0 - length (bin_digits q))%nat with 0%nat by lia.
      reflexivity.
    + rewrite lookup_app_l by lia.
      replace (length (bin_digits q) + 1 - 1 - S k)%nat
        with (length (bin_digits q) - 1 - k)%nat by lia.
      rewrite IH by lia. rewrite Nat2Z.inj_succ, Pos2Z.inj_xO.
      now rewrite Z.testbit_even_succ by lia.
  - destruct k; [reflexivity | lia].
Qed.

Lemma getitem_neg_bin_digits p (k : nat) :
  (k < length (bin_digits p))%nat ->
  getitem_neg (bin_digits p) (S k)
  = inr (if Z.testbit (Zpos p) (Z.of_nat k) then "1"%char else "0"%char).
Proof.
  intros Hk. unfold getitem_neg.
  destruct (Nat.ltb_spec (length (bin_digits p)) (S k)) as [H|_]; [lia|].
  replace (length (bin_digits p) - S k)%nat with (length (bin_digits p) - 1 - k)%nat by lia.
  now rewrite bin_digits_lookup.
Qed.

Lemma digit_is_1 (b : bool) :
  Ascii.eqb (if b then "1"%char else "0"%char) "1"%char = b.
Proof. now destruct b. Qed.

(** The test of the cell, for every integer. *)
Lemma bitmask_value_2_eq pix :
  bitmask_value_2 pix =
  if (pix =? 0)%Z || (pix =? 1)%Z then inl IndexError
  else inr (Z.testbit (Z.abs pix) 1).
Proof.
  destruct pix as [|p|p]; [reflexivity| |].
  - destruct (Pos.eq_dec p 1%positive) as [->|Hp]; [reflexivity|].
    assert ((Zpos p =? 0)%Z || (Zpos p =? 1)%Z = false) as ->.
    { apply orb_false_iff. split; apply Z.eqb_neq; [lia|]. intros [= ->]. now apply Hp. }
    unfold bitmask_value_2, binary_repr.
    rewrite (getitem_neg_bin_digits p 1), digit_is_1; [reflexivity|].
    rewrite length_bin_digits. destruct p; simpl; first [lia | now contradiction Hp].
  - assert ((Zneg p =? 0)%Z || (Zneg p =? 1)%Z = false) as -> by reflexivity.
    destruct (Pos.eq_dec p 1%positive) as [->|Hp]; [reflexivity|].
    unfold bitmask_value_2, binary_repr, getitem_neg. simpl length.
    assert (2 <= length (bin_digits p))%nat as Hlen.
    { rewrite length_bin_digits. destruct p; simpl; first [lia | now contradiction Hp]. }
    destruct (Nat.ltb_spec (S (length (bin_digits p))) 2) as [H|_]; [lia|].
    replace (S (length (bin_digits p)) - 2)%nat
      with (S (length (bin_digits p) - 1 - 1))%nat by lia.
    rewrite lookup_cons. rewrite bin_digits_lookup by lia.
    now rewrite digit_is_1.
Qed.

Lemma bitmask_value_2_readable pix :
  pix <> 0%Z -> pix <> 1%Z -> bitmask_value_2 pix = inr (Z.testbit (Z.abs pix) 1).
Proof.
  intros H0 H1. rewrite bitmask_value_2_eq.
  destruct (Z.eqb_spec pix 0), (Z.eqb_spec pix 1); simpl; congruence.
Qed.

Lemma bitmask_value_2_short pix :
  pix = 0%Z \/ pix = 1%Z -> bitmask_value_2 pix = inl IndexError.
Proof. intros [->| ->]; reflexivity. Qed.

(** How a row ends: it gets through when no pixel is 0 or 1, and raises
    [IndexError] otherwise. *)
Lemma mark_row_outcome i j row a :
  (Forall (fun pix => pix <> 0%Z /\ pix <> 1%Z) row /\ snd (mark_row i j row a) = inr tt) \/
  (Exists (fun pix => pix = 0%Z \/ pix = 1%Z) row /\ snd (mark_row i j row a) = inl IndexError).
Proof.
  revert j a. induction row as [|pix row IH]; intros j a; simpl.
  - left. split; [constructor | reflexivity].
  - destruct (decide (pix = 0%Z \/ pix = 1%Z)) as [Hs|Hr].
    + right. rewrite (bitmask_value_2_short _ Hs). split; [now left | reflexivity].
    + assert (pix <> 0%Z /\ pix <> 1%Z) as [H0 H1] by tauto.
      rewrite (bitmask_value_2_readable _ H0 H1).
      destruct (Z.testbit (Z.abs pix) 1).
      * destruct (IH (S j) (setitem2 a i j 1)) as [[Hall E]|[Hex E]];
          [left | right]; (split; [constructor; tauto | exact E]).
      * destruct (IH (S j) a) as [[Hall E]|[Hex E]];
          [left | right]; (split; [constructor; tauto | exact E]).
Qed.

Lemma mark_rows_outcome i aperture a :
  (Forall (Forall (fun pix => pix <> 0%Z /\ pix <> 1%Z)) aperture /\
   snd (mark_rows i aperture a) = inr tt) \/
  (Exists (Exists (fun pix => pix = 0%Z \/ pix = 1%Z)) aperture /\
   snd (mark_rows i aperture a) = inl IndexError).
Proof.
  revert i a. induction aperture as [|row aperture IH]; intros i a; simpl.
  - left. split; [constructor | reflexivity].
  - pose proof (mark_row_outcome i 0 row a) as Hrow.
    destruct (mark_row i 0 row a) as [a1 [e|[]]]; simpl in *.
    + destruct Hrow as [[_ [=]]|[Hex [= ->]]]. right. split; [now left | reflexivity].
    + destruct Hrow as [[Hall _]|[_ [=]]].
      destruct (IH (S i) a1) as [[Hall' E]|[Hex E]];
        [left | right]; (split; [now constructor | exact E]).
Qed.

(** A write keeps the shape of the array and its entries among 0 and 1. *)
Lemma setitem2_shape a i j :
  map length (setitem2 a i j 1) = map length a /\
  (Forall (Forall (fun v => v = 0%Z \/ v = 1%Z)) a ->
   Forall (Forall (fun v => v = 0%Z \/ v = 1%Z)) (setitem2 a i j 1)).
Proof.
  unfold setitem2. destruct (a !! i) as [row|] eqn:E; [|tauto]. split.
  - apply list_eq. intros k. rewrite !list_lookup_fmap.
    destruct (decide (k = i)) as [->|Hne].
    + rewrite list_lookup_insert_eq by (now apply lookup_lt_Some in E).
      rewrite E. simpl. now rewrite length_insert.
    + now rewrite list_lookup_insert_ne by congruence.
  - intros Hall. apply Forall_insert; [exact Hall|].
    apply Forall_insert; [|now right].
    rewrite Forall_forall in Hall. apply Hall. apply list_elem_of_lookup. now exists i.
Qed.

Lemma mark_row_shape i j row a :
  map length (fst (mark_row i j row a)) = map length a /\
  (Forall (Forall (fun v => v = 0%Z \/ v = 1%Z)) a ->
   Forall (Forall (fun v => v = 0%Z \/ v = 1%Z)) (fst (mark_row i j row a))).
Proof.
  revert j a. induction row as [|pix row IH]; intros j a; simpl; [tauto|].
  destruct (bitmask_value_2 pix) as [e|[|]]; simpl; [tauto| |apply IH].
  destruct (IH (S j) (setitem2 a i j 1)) as [Hs Hv], (setitem2_shape a i j) as [Hs' Hv'].
  split; [congruence | tauto].
Qed.

Lemma mark_rows_shape i aperture a :
  map length (fst (mark_rows i aperture a)) = map length a /\
  (Forall (Forall (fun v => v = 0%Z \/ v = 1%Z)) a ->
   Forall (Forall (fun v => v = 0%Z \/ v = 1%Z)) (fst (mark_rows i aperture a))).
Proof.
  revert i a. induction aperture as [|row aperture IH]; intros i a; simpl; [tauto|].
  pose proof (mark_row_shape i 0 row a) as [Hs Hv].
  destruct (mark_row i 0 row a) as [a1 [e|[]]]; simpl in *; [tauto|].
  destruct (IH (S i) a1) as [Hs' Hv']. split; [congruence | tauto].
Qed.

Lemma zeros_like_shape aperture :
  map length (zeros_like aperture) = map length aperture /\
  Forall (Forall (fun v => v = 0%Z \/ v = 1%Z)) (zeros_like aperture).
Proof.
  unfold zeros_like. split.
  - rewrite map_map. apply map_ext. intros row. apply length_map.
  - apply Forall_forall. intros row Hrow.
    apply list_elem_of_fmap in Hrow as (row0 & -> & _).
    apply Forall_forall. intros v Hv. apply list_elem_of_fmap in Hv as (pix & -> & _).
    now left.
Qed.



(** X1.  [np.binary_repr] of a positive number has one character more than
    the binary logarithm of the number, and the character [k] places from
    the right ([[-(k+1)]]) is ['1'] exactly when bit [k] of the number is
    set. *)
Theorem binary_repr_digit_is_bit (num : Z) (k : nat) :
  (0 < num)%Z -> (Z.of_nat k <= Z.log2 num)%Z ->
  length (binary_repr num) = Z.to_nat (Z.log2 num + 1) /\
  getitem_neg (binary_repr num) (S k)
  = inr (if Z.testbit num (Z.of_nat k) then "1"%char else "0"%char).
Proof.
  intros Hpos Hk. destruct num as [|p|p]; try lia. simpl binary_repr.
  assert (length (bin_digits p) = Z.to_nat (Z.log2 (Zpos p) + 1)) as Hlen.
  { rewrite length_bin_digits. destruct p; simpl; lia. }
  split; [exact Hlen|]. apply getitem_neg_bin_digits. rewrite Hlen.
  pose proof (Z.log2_nonneg (Zpos p)). lia.
Qed.

Lemma binary_repr_digit_is_bit_witness :
  length (binary_repr 267) = 9%nat /\
  getitem_neg (binary_repr 267) 4 = inr "1"%char.
Proof.
  apply (binary_repr_digit_is_bit 267 3); [reflexivity | vm_compute; discriminate].
Defined.

(** X2.  The test [np.binary_repr(pix)[-2] == '1'] of the cell: a pixel
    value 0 or 1 has a one-character representation and the index raises
    [IndexError]; for a value of 2 or more the test is bit 1 of the value
    (the bit of mask value 2); for a negative value it is bit 1 of the
    magnitude, since the representation is a minus sign before the digits
    of the magnitude. *)
Theorem bitmask_value_2_cases (pix : Z) :
  ((pix = 0 \/ pix = 1)%Z -> bitmask_value_2 pix = inl IndexError) /\
  ((2 <= pix)%Z -> bitmask_value_2 pix = inr (Z.testbit pix 1)) /\
  ((pix < 0)%Z -> bitmask_value_2 pix = inr (Z.testbit (- pix) 1)).
Proof.
  split; [apply bitmask_value_2_short|]. split; intros H.
  - rewrite bitmask_value_2_readable by lia. now rewrite Z.abs_eq by lia.
  - rewrite bitmask_value_2_readable by lia. now rewrite Z.abs_neq by lia.
Qed.



(** X4.  The cell gets through exactly when no pixel of the aperture is 0
    or 1; with such a pixel it raises [IndexError].  Either way
    [bitmask2_set] keeps the shape of the aperture and holds zeros and ones
    only. *)
Theorem mark_aperture_outcome (aperture : list (list Z)) :
  (snd (mark_aperture aperture) = inr tt <->
   forall row pix, row ∈ aperture -> pix ∈ row -> pix <> 0%Z /\ pix <> 1%Z) /\
  ((exists row pix, row ∈ aperture /\ pix ∈ row /\ (pix = 0 \/ pix = 1)%Z) ->
   snd (mark_aperture aperture) = inl IndexError) /\
  map length (fst (mark_aperture aperture)) = map length aperture /\
  Forall (Forall (fun v => v = 0%Z \/ v = 1%Z)) (fst (mark_aperture aperture)).
Proof.
  unfold mark_aperture.
  pose proof (mark_rows_outcome 0 aperture (zeros_like aperture)) as Hout.
  pose proof (mark_rows_shape 0 aperture (zeros_like aperture)) as [Hs Hv].
  pose proof (zeros_like_shape aperture) as [Hzs Hzv].
  split; [|split; [|split; [congruence | tauto]]].
  - split.
    + intros E. destruct Hout as [[Hall _]|[_ E']]; [|congruence].
      intros row pix Hrow Hpix. rewrite Forall_forall in Hall.
      specialize (Hall row Hrow). rewrite Forall_forall in Hall. now apply Hall.
    + intros Hall. destruct Hout as [[_ E]|[Hex _]]; [exact E|].
      apply Exists_exists in Hex as (row & Hrow & Hex).
      apply Exists_exists in Hex as (pix & Hpix & Hbad).
      destruct (Hall row pix Hrow Hpix). tauto.
  - intros (row & pix & Hrow & Hpix & Hbad).
    destruct Hout as [[Hall _]|[_ E]]; [|exact E].
    rewrite Forall_forall in Hall. specialize (Hall row Hrow).
    rewrite Forall_forall in Hall. destruct (Hall pix Hpix). tauto.
Qed.

(** ** How the matching cell ends *)

Section Outcome.

Variable tbl : list SectorRow.

Lemma omap_id_cons_Some (s : Z) (prods : list (option Z)) :
  omap id (Some s :: prods) = s :: omap id prods.
Proof. reflexivity. Qed.

Lemma omap_id_cons_None (prods : list (option Z)) :
  omap id (None :: prods) = omap id prods.
Proof. reflexivity. Qed.

(** The inner loop with [None] in the copy's cell. *)
Lemma inner_loop_ends_None flare (prods : list (option Z)) h :
  sectors flare = PyNone ->
  let out := snd (for_each (check_data_prod tbl) flare prods h) in
  (Forall is_Some prods /\
   Forall (fun s => is_Some (sector_window tbl s)) (omap id prods) /\
   List.filter (in_window tbl (mjd flare)) (omap id prods) = [] /\
   out = inr flare) \/
  (out = inl ValueError /\ None ∈ prods) \/
  (out = inl IndexError /\ Exists (fun s => sector_window tbl s = None) (omap id prods)) \/
  (out = inl AttributeError /\
   (1 <= length (List.filter (in_window tbl (mjd flare)) (omap id prods)))%nat).
Proof.
  intros Hn. revert h. induction prods as [|[s|] prods IH]; intros h; cbv zeta.
  - left. repeat split; constructor.
  - rewrite for_each_cons. change (check_data_prod tbl flare (Some s)) with (check_product tbl flare s).
    rewrite check_product_None by exact Hn. rewrite omap_id_cons_Some. simpl List.filter.
    destruct (sector_window tbl s) as [w|] eqn:Ew.
    + destruct (in_window tbl (mjd flare) s) eqn:Ein.
      * right. right. right. simpl. split; [reflexivity | lia].
      * destruct (IH h) as [(Hp & Hk & Hf & E)|[(E & Hex)|[(E & Hex)|(E & Hlen)]]].
        -- left. repeat split; [constructor; [now exists s | exact Hp]
                               | constructor; [now exists w | exact Hk] | exact Hf | exact E].
        -- right. left. split; [exact E | now right].
        -- right. right. left. split; [exact E | now right].
        -- right. right. right. split; [exact E | exact Hlen].
    + right. right. left. split; [reflexivity | now left].
  - right. left. split; [reflexivity | left].
Qed.

(** The inner loop with the row's list in the copy's cell. *)
Lemma inner_loop_ends flare l (prods : list (option Z)) h :
  sectors flare = PyList l ->
  let out := snd (for_each (check_data_prod tbl) flare prods h) in
  (Forall is_Some prods /\
   Forall (fun s => is_Some (sector_window tbl s)) (omap id prods) /\
   (length (List.filter (in_window tbl (mjd flare)) (omap id prods)) <= 1)%nat /\
   exists flare', out = inr flare') \/
  (out = inl ValueError /\ None ∈ prods) \/
  (out = inl IndexError /\ Exists (fun s => sector_window tbl s = None) (omap id prods)) \/
  (out = inl AttributeError /\
   (2 <= length (List.filter (in_window tbl (mjd flare)) (omap id prods)))%nat).
Proof.
  intros Hl. revert h. induction prods as [|[s|] prods IH]; intros h; cbv zeta.
  - left. repeat split; [constructor | constructor | simpl; lia | now exists flare].
  - rewrite for_each_cons. change (check_data_prod tbl flare (Some s)) with (check_product tbl flare s).
    rewrite check_product_cases. rewrite omap_id_cons_Some. simpl List.filter.
    destruct (sector_window tbl s) as [w|] eqn:Ew.
    + destruct (in_window tbl (mjd flare) s) eqn:Ein.
      * rewrite Hl.
        destruct (inner_loop_ends_None (set_sectors flare PyNone) prods
                    (alter (fun xs => xs ++ [s]) l h) eq_refl)
          as [(Hp & Hk & Hf & E)|[(E & Hex)|[(E & Hex)|(E & Hlen)]]]; simpl in *.
        -- left. repeat split; [constructor; [now exists s | exact Hp]
                               | constructor; [now exists w | exact Hk]
                               | rewrite Hf; simpl; lia |].
           now exists (set_sectors flare PyNone).
        -- right. left. split; [exact E | now right].
        -- right. right. left. split; [exact E | now right].
        -- right. right. right. split; [exact E | lia].
      * destruct (IH h) as [(Hp & Hk & Hf & E)|[(E & Hex)|[(E & Hex)|(E & Hlen)]]].
        -- left. repeat split; [constructor; [now exists s | exact Hp]
                               | constructor; [now exists w | exact Hk] | exact Hf | exact E].
        -- right. left. split; [exact E | now right].
        -- right. right. left. split; [exact E | now right].
        -- right. right. right. split; [exact E | exact Hlen].
    + right. right. left. split; [reflexivity | now left].
  - right. left. split; [reflexivity | left].
Qed.

Variable search : tesscut_texts.
Variable valid : gset Z.

(** The body of the loop: the coordinate first, then the products. *)
Lemma iterrows_body_eq r h :
  iterrows_body tbl search valid r h =
  if dec_in_range r
  then match for_each (check_data_prod tbl) (rec r) (products_of search valid r) h with
       | (h', inl e) => (h', inl e)
       | (h', inr _) => (h', inr tt)
       end
  else (h, inl ValueError).
Proof.
  unfold iterrows_body, SkyCoord, dec_in_range, products_of.
  destruct (Qle_bool (-90) (dec (rec r)) && Qle_bool (dec (rec r)) 90); [|reflexivity].
  cbn [fst snd].
  destruct (search (ra (rec r)) (dec (rec r)) valid) as [|s hits]; reflexivity.
Qed.

(** The cell over rows whose cells hold lists. *)
Lemma matching_cell_ends rs h :
  Forall (fun r => is_Some (cell_loc r)) rs ->
  let out := snd (for_each (fun _ r => iterrows_body tbl search valid r) tt rs h) in
  (Forall (fun r =>
             dec_in_range r = true /\
             Forall is_Some (products_of search valid r) /\
             Forall (fun s => is_Some (sector_window tbl s)) (sectors_of search valid r) /\
             (length (List.filter (in_window tbl (mjd (rec r))) (sectors_of search valid r))
              <= 1)%nat) rs /\
   out = inr tt) \/
  (out = inl ValueError /\
   Exists (fun r => dec_in_range r = false \/ None ∈ products_of search valid r) rs) \/
  (out = inl IndexError /\
   Exists (fun r => Exists (fun s => sector_window tbl s = None) (sectors_of search valid r)) rs) \/
  (out = inl AttributeError /\
   Exists (fun r => (2 <= length (List.filter (in_window tbl (mjd (rec r)))
                                    (sectors_of search valid r)))%nat) rs).
Proof.
  intros Hcells. revert h. induction Hcells as [|r rs [l Hl] _ IH]; intros h; cbv zeta.
  - left. split; [constructor | reflexivity].
  - rewrite for_each_cons, iterrows_body_eq.
    destruct (dec_in_range r) eqn:Edec;
      [|right; left; split; [reflexivity | left; now left]].
    assert (sectors (rec r) = PyList l) as Hl'.
    { unfold cell_loc in Hl. destruct (sectors (rec r)); congruence. }
    pose proof (inner_loop_ends (rec r) l (products_of search valid r) h Hl') as Hin.
    simpl in Hin. fold (sectors_of search valid r) in Hin.
    destruct (for_each (check_data_prod tbl) (rec r) (products_of search valid r) h)
      as [h1 [e|flare']]; simpl in Hin.
    + destruct Hin as [(_ & _ & _ & [f' [=]])|[([= ->] & Hex)|[([= ->] & Hex)|([= ->] & Hlen)]]].
      * right. left. split; [reflexivity | left; now right].
      * right. right. left. split; [reflexivity | now left].
      * right. right. right. split; [reflexivity | now left].
    + destruct Hin as [(Hp & Hk & Hf & _)|[([=] & _)|[([=] & _)|([=] & _)]]].
      destruct (IH h1) as [(Hall & E)|[(E & Hex)|[(E & Hex)|(E & Hex)]]].
      * left. split; [now constructor | exact E].
      * right. left. split; [exact E | now right].
      * right. right. left. split; [exact E | now right].
      * right. right. right. split; [exact E | now right].
Qed.

End Outcome.

Lemma for_each_check_data_prod_Some tbl flare (hits : list Z) h :
  for_each (check_data_prod tbl) flare (map Some hits) h
  = for_each (check_product tbl) flare hits h.
Proof.
  revert flare h. induction hits as [|s hits IH]; intros flare h; [reflexivity|].
  simpl map. rewrite !for_each_cons.
  change (check_data_prod tbl flare (Some s)) with (check_product tbl flare s).
  destruct (check_product tbl flare s h) as [h1 [e|f1]]; [reflexivity | apply IH].
Qed.

(** Where every declination is accepted and every mission text reads as a
    number, the cell is the loop [find_matches] on those numbers. *)
Lemma matching_cell_find_matches tbl (search : tesscut) valid df h :
  (forall r, r ∈ rows df -> dec_in_range r = true) ->
  matching_cell tbl (fun ra dec v => map Some (search ra dec v)) valid df h
  = find_matches tbl search valid df h.
Proof.
  unfold matching_cell, find_matches. destruct df as [cols rs]. simpl.
  revert h. induction rs as [|r rs IH]; intros h Hdec; [reflexivity|].
  rewrite !for_each_cons, iterrows_body_eq, match_flare_eq.
  rewrite (Hdec r ltac:(left)).
  change (products_of (fun ra dec v => map Some (search ra dec v)) valid r)
    with (map Some (hits_of search valid r)).
  rewrite for_each_check_data_prod_Some.
  destruct (for_each (check_product tbl) (rec r) (hits_of search valid r) h) as [h1 [e|f1]];
    [reflexivity|].
  apply IH. intros r' Hr'. apply Hdec. now right.
Qed.

Lemma sector_window_Some tbl sector :
  is_Some (sector_window tbl sector) <-> exists w, w ∈ tbl /\ Sector w = sector.
Proof.
  destruct (sector_window tbl sector) as [w|] eqn:E.
  - split; [intros _ | intros _; now exists w].
    unfold sector_window in E.
    destruct (List.filter _ tbl) as [|w0 ws] eqn:Ef; [discriminate|].
    assert (In w0 (List.filter (fun w => (Sector w =? sector)%Z) tbl)) as Hin
        by (rewrite Ef; now left).
    apply filter_In in Hin as [Hin Heq]. exists w0.
    split; [now apply list_elem_of_In | now apply Z.eqb_eq].
  - split; [intros [w [=]]|]. intros (w & Hw & Hs).
    exfalso. exact (proj1 (sector_window_None tbl sector) E w Hw Hs).
Qed.

Lemma loaded_cells csv : Forall (fun r => is_Some (cell_loc r)) (imap read_row csv).
Proof.
  apply Forall_forall. intros r Hr. apply loaded_row in Hr as (i & c & _ & ->).
  now exists i.
Qed.

Lemma dec_in_range_spec r :
  dec_in_range r = true <-> (-90 <= dec (rec r) /\ dec (rec r) <= 90)%Q.
Proof.
  unfold dec_in_range. rewrite andb_true_iff, !Qle_bool_iff. reflexivity.
Qed.

(** X5.  The matching cell over the loaded catalogue gets through exactly
    when, for every flare, the declination lies in [-90, 90], each product
    has a mission text that reads as a number, that number is a sector of
    the table, and at most one product passes the time test. *)
Theorem matching_cell_completes_iff tbl search valid csv :
  snd (matching_cell tbl search valid (snd (load_flares csv)) (fst (load_flares csv)))
  = inr tt <->
  forall r, r ∈ rows (snd (load_flares csv)) ->
    (-90 <= dec (rec r) /\ dec (rec r) <= 90)%Q /\
    (forall p, p ∈ products_of search valid r ->
       exists s, p = Some s /\ exists w, w ∈ tbl /\ Sector w = s) /\
    (length (List.filter (in_window tbl (mjd (rec r))) (sectors_of search valid r)) <= 1)%nat.
Proof.
  rewrite load_flares_eq. unfold matching_cell. simpl.
  pose proof (matching_cell_ends tbl search valid _ (fresh_lists (length csv))
                (loaded_cells csv)) as Hends.
  simpl in Hends. split.
  - intros E. destruct Hends as [(Hall & _)|[(E' & _)|[(E' & _)|(E' & _)]]]; [|congruence..].
    intros r Hr. rewrite Forall_forall in Hall. destruct (Hall r Hr) as (Hd & Hp & Hk & Hlen).
    split; [now apply dec_in_range_spec|]. split; [|exact Hlen].
    intros p Hpin. rewrite Forall_forall in Hp. destruct (Hp p Hpin) as [s ->].
    exists s. split; [reflexivity|]. apply sector_window_Some.
    rewrite Forall_forall in Hk. apply Hk. unfold sectors_of.
    apply list_elem_of_omap. now exists (Some s).
  - intros Hall.
    destruct Hends as [(_ & E)|[(_ & Hex)|[(_ & Hex)|(_ & Hex)]]]; [exact E| | |].
    + apply Exists_exists in Hex as (r & Hr & Hbad).
      destruct (Hall r Hr) as (Hd & Hp & _). destruct Hbad as [Hbad|Hbad].
      * apply dec_in_range_spec in Hd. congruence.
      * destruct (Hp None Hbad) as (s & [=] & _).
    + apply Exists_exists in Hex as (r & Hr & Hex).
      apply Exists_exists in Hex as (s & Hs & Hnone).
      destruct (Hall r Hr) as (_ & Hp & _).
      unfold sectors_of in Hs. apply list_elem_of_omap in Hs as (p & Hpin & Hid).
      destruct (Hp p Hpin) as (s' & -> & Hw). simpl in Hid. injection Hid as ->.
      apply sector_window_Some in Hw as [w Hw]. congruence.
    + apply Exists_exists in Hex as (r & Hr & Hlen).
      destruct (Hall r Hr) as (_ & _ & Hle). lia.
Qed.



(** A flare at declination 100 stops the cell with [ValueError] before the
    archive is asked; the match of the flare before it stays recorded.  A
    product whose mission text is no number does the same at that product. *)
Example matching_cell_refused_inputs :
  matching_cell sectors_1_2 (always_texts [Some 1%Z]) ∅
    (snd (load_flares [flare_at 105; flare_dec_at 100 105]))
    (fst (load_flares [flare_at 105; flare_dec_at 100 105]))
  = (<[0%nat := [1%Z]]> (fresh_lists 2), inl ValueError) /\
  matching_cell sectors_1_2 (always_texts [Some 1%Z; None; Some 2%Z]) ∅
    (snd (load_flares [flare_at 109]))
    (fst (load_flares [flare_at 109]))
  = (<[0%nat := [1%Z]]> (fresh_lists 1), inl ValueError).
Proof. split; by_evaluation. Qed.

(** X7.  When the archive answers only with products whose mission text
    reads as a sector of the candidate set it was given, and that set comes
    from the candidate filter, every product names a sector of the table:
    the cell never raises [IndexError], it raises [ValueError] only for a
    declination outside [-90, 90], and it gets through exactly when every
    declination lies in that range and no flare has two products that pass
    the time test. *)
Theorem matching_cell_with_candidates tbl search bounds csv :
  let valid := valid_sectors tbl bounds in
  let out := snd (matching_cell tbl search valid (snd (load_flares csv))
                    (fst (load_flares csv))) in
  (forall r p, r ∈ rows (snd (load_flares csv)) -> p ∈ products_of search valid r ->
               exists s, p = Some s /\ s ∈ valid) ->
  out <> inl IndexError /\
  (out = inl ValueError ->
   exists r, r ∈ rows (snd (load_flares csv)) /\
             ~ (-90 <= dec (rec r) /\ dec (rec r) <= 90)%Q) /\
  (out = inr tt <->
   forall r, r ∈ rows (snd (load_flares csv)) ->
     (-90 <= dec (rec r) /\ dec (rec r) <= 90)%Q /\
     (length (List.filter (in_window tbl (mjd (rec r))) (sectors_of search valid r)) <= 1)%nat).
Proof.
  intros valid out Hhonest. subst out.
  assert (forall r, r ∈ rows (snd (load_flares csv)) ->
            ~ None ∈ products_of search valid r) as Hparse.
  { intros r Hr Hn. destruct (Hhonest r None Hr Hn) as (s & [=] & _). }
  assert (forall r s, r ∈ rows (snd (load_flares csv)) -> s ∈ sectors_of search valid r ->
            is_Some (sector_window tbl s)) as Hknown.
  { intros r s Hr Hs. apply sector_window_Some.
    unfold sectors_of in Hs. apply list_elem_of_omap in Hs as (p & Hpin & Hid).
    destruct (Hhonest r p Hr Hpin) as (s' & -> & Hv). simpl in Hid. injection Hid as ->.
    apply valid_sectors_spec in Hv as (w & Hw & Hsw & _). now exists w. }
  revert Hparse Hknown. clear Hhonest. rewrite load_flares_eq. unfold matching_cell. simpl.
  intros Hparse Hknown.
  pose proof (matching_cell_ends tbl search valid _ (fresh_lists (length csv))
                (loaded_cells csv)) as Hends.
  simpl in Hends.
  assert (~ Exists (fun r => Exists (fun s => sector_window tbl s = None)
                               (sectors_of search valid r)) (imap read_row csv)) as Hno.
  { intros Hex. apply Exists_exists in Hex as (r & Hr & Hex).
    apply Exists_exists in Hex as (s & Hs & Hnone).
    destruct (Hknown r s Hr Hs) as [w Hw]. congruence. }
  split; [|split; [|split]].
  - intros E.
    destruct Hends as [(_ & E')|[(E' & _)|[(_ & Hex)|(E' & _)]]];
      [congruence | congruence | tauto | congruence].
  - intros E.
    destruct Hends as [(_ & E')|[(_ & Hex)|[(_ & Hex)|(E' & _)]]];
      [congruence | | tauto | congruence].
    apply Exists_exists in Hex as (r & Hr & Hbad). exists r. split; [exact Hr|].
    destruct Hbad as [Hbad|Hbad]; [|now destruct (Hparse r Hr)].
    intros Hd. apply dec_in_range_spec in Hd. congruence.
  - intros E.
    destruct Hends as [(Hall & _)|[(E' & _)|[(_ & Hex)|(E' & _)]]];
      [|congruence|tauto|congruence].
    intros r Hr. rewrite Forall_forall in Hall. destruct (Hall r Hr) as (Hd & _ & _ & Hlen).
    split; [now apply dec_in_range_spec | exact Hlen].
  - intros Hall.
    destruct Hends as [(_ & E)|[(_ & Hex)|[(_ & Hex)|(_ & Hex)]]]; [exact E| |tauto|].
    + apply Exists_exists in Hex as (r & Hr & Hbad).
      destruct Hbad as [Hbad|Hbad]; [|now destruct (Hparse r Hr)].
      destruct (Hall r Hr) as [Hd _]. apply dec_in_range_spec in Hd. congruence.
    + apply Exists_exists in Hex as (r & Hr & Hlen). destruct (Hall r Hr) as [_ Hle]. lia.
Qed.

Lemma matching_cell_with_candidates_witness :
  snd (matching_cell sectors_1_2 (always_texts [Some 1; Some 2]%Z)
         (valid_sectors sectors_1_2 (105, 119)%Q)
         (snd (load_flares [flare_at 105; flare_at 119]))
         (fst (load_flares [flare_at 105; flare_at 119])))
  <> inl IndexError.
Proof.
  apply (matching_cell_with_candidates sectors_1_2 (always_texts [Some 1; Some 2]%Z)
           (105, 119)%Q [flare_at 105; flare_at 119]).
  intros r p _ Hp. unfold products_of, always_texts in Hp.
  repeat (apply elem_of_cons in Hp as [->|Hp]);
    [eexists; split; [reflexivity | vm_compute; reflexivity].. | inversion Hp].
Defined.

(** ** What the matching loop records *)

(** Whatever the outcome, a list that has changed belongs to a row, and has
    got one product of that row that passes the time test. *)
Lemma find_matches_sound tbl search valid rs h h' out :
  NoDup (cell_locs rs) ->
  for_each (fun _ r => match_flare tbl search valid r) tt rs h = (h', out) ->
  forall l, h' !! l = h !! l \/
    exists r s, r ∈ rs /\ cell_loc r = Some l /\ s ∈ hits_of search valid r /\
                in_window tbl (mjd (rec r)) s = true /\
                h' !! l = (fun xs => xs ++ [s]) <$> h !! l.
Proof.
  revert h h' out. induction rs as [|r0 rs IH]; intros h h' out Hnd.
  - simpl. unfold ret. intros [= <- <-] l. now left.
  - rewrite for_each_cons, match_flare_eq.
    destruct (for_each (check_product tbl) (rec r0) (hits_of search valid r0) h)
      as [h1 o1] eqn:Hin.
    rewrite cell_locs_cons in Hnd. apply NoDup_app in Hnd as (_ & Hdisj & Hnd).
    assert (forall l, h1 !! l = h !! l \/
              exists s, cell_loc r0 = Some l /\ s ∈ hits_of search valid r0 /\
                        in_window tbl (mjd (rec r0)) s = true /\
                        h1 !! l = (fun xs => xs ++ [s]) <$> h !! l) as Hhead.
    { intros l. unfold cell_loc. destruct (sectors (rec r0)) as [|l0] eqn:Hc.
      - apply inner_loop_None in Hin as [-> _]; [now left | exact Hc].
      - destruct (inner_loop_store tbl _ l0 _ _ _ _ Hc Hin) as [->|(s & Hs & Hw & ->)];
          [now left|].
        destruct (decide (l0 = l)) as [<-|Hne].
        + right. exists s. repeat split; try assumption. apply lookup_alter_eq.
        + left. now apply lookup_alter_ne. }
    assert (forall l, l ∈ cell_locs rs -> h1 !! l = h !! l) as Hrest.
    { intros l Hl. destruct (Hhead l) as [E|(s & Hc & _)]; [exact E|].
      exfalso. apply (Hdisj l); [|exact Hl]. unfold cell_locs. simpl. rewrite Hc. left. }
    intros Hrun l.
    assert (h' !! l = h1 !! l \/
            exists r s, r ∈ rs /\ cell_loc r = Some l /\ s ∈ hits_of search valid r /\
                        in_window tbl (mjd (rec r)) s = true /\
                        h' !! l = (fun xs => xs ++ [s]) <$> h1 !! l) as Htail.
    { destruct o1 as [e|flare'].
      - injection Hrun as <- <-. now left.
      - exact (IH h1 h' out Hnd Hrun l). }
    destruct Htail as [E|(r & s & Hr & Hc & Hs & Hw & E)].
    + rewrite E. destruct (Hhead l) as [E1|(s & Hc & Hs & Hw & E1)]; [now left|].
      right. exists r0, s. repeat split; try assumption. left.
    + right. exists r, s. repeat split; try assumption; [now right|].
      rewrite E, Hrest; [reflexivity|].
      unfold cell_locs. apply list_elem_of_omap. now exists r.
Qed.

(** X8.  At the end of a run over the loaded catalogue, whether it got
    through or raised, every sector in a flare's list is one of the products
    the archive returned for that flare, and its window in the table strictly
    contains the time of the flare. *)
Theorem recorded_sector_is_passing_product tbl search valid csv r s :
  let run := find_matches tbl search valid (snd (load_flares csv)) (fst (load_flares csv)) in
  r ∈ rows (snd (load_flares csv)) ->
  s ∈ matched_sectors (fst run) (rec r) ->
  s ∈ hits_of search valid r /\
  exists a b, sector_window tbl s = Some (a, b) /\ (a < mjd (rec r))%Q /\ (mjd (rec r) < b)%Q.
Proof.
  intros run. subst run. rewrite load_flares_eq. unfold find_matches. simpl.
  intros Hr Hs.
  destruct (for_each _ tt (imap read_row csv) (fresh_lists (length csv))) as [h' out] eqn:Hrun.
  simpl in Hs.
  pose proof (find_matches_sound _ _ _ _ _ _ _
                ltac:(rewrite cell_locs_loaded; apply NoDup_seq) Hrun) as Hsound.
  destruct (loaded_row _ _ Hr) as (i & c & Hi & Er).
  pose proof (lookup_lt_Some _ _ _ Hi) as Hlt.
  pose proof (fresh_lists_lookup (length csv) i) as Hf.
  destruct (decide (i < length csv)%nat); [|lia].
  assert (matched_sectors h' (rec r) = default [] (h' !! i)) as Hm by (now subst r).
  rewrite Hm in Hs.
  destruct (Hsound i) as [E|(r' & s' & Hr' & Hc' & Hs' & Hw' & E)].
  - rewrite E, Hf in Hs. inversion Hs.
  - rewrite E, Hf in Hs. simpl in Hs. apply list_elem_of_singleton in Hs as ->.
    assert (r' = r) as ->.
    { destruct (loaded_row _ _ Hr') as (i' & c' & Hi' & Er').
      assert (i' = i) as ->
          by (rewrite Er' in Hc'; unfold cell_loc in Hc'; simpl in Hc'; congruence).
      subst r r'. congruence. }
    split; [exact Hs'|]. now apply in_window_strict.
Qed.

Lemma recorded_sector_is_passing_product_witness :
  (1%Z ∈ hits_of (always [2; 1]%Z) ∅ (read_row 0 (flare_at 105))) /\
  exists a b, sector_window sectors_1_2 1 = Some (a, b) /\
              (a < mjd (rec (read_row 0 (flare_at 105))))%Q /\
              (mjd (rec (read_row 0 (flare_at 105))) < b)%Q.
Proof.
  apply (recorded_sector_is_passing_product sectors_1_2 (always [2; 1]%Z) ∅
           [flare_at 105] (read_row 0 (flare_at 105)) 1%Z).
  - vm_compute. left.
  - vm_compute. left.
Defined.



(** ** The loop and the result cell together *)

(** X10.  After a run that got through, the result cell keeps exactly the
    flares with a product that passes the time test, in the order of the
    catalogue, and each of them has one sector in its list: that product. *)
Theorem candidates_after_completed_run tbl search valid csv h' :
  find_matches tbl search valid (snd (load_flares csv)) (fst (load_flares csv))
  = (h', inr tt) ->
  exists out,
    spt_tess_candidates h' (snd (load_flares csv)) = inr out /\
    map rec (rows out)
    = map rec (List.filter
                 (fun r => (0 <? length (List.filter (in_window tbl (mjd (rec r)))
                                           (hits_of search valid r)))%nat)
                 (rows (snd (load_flares csv)))) /\
    forall r, r ∈ rows out ->
      exists s, matched_sectors h' (rec r) = [s] /\
                List.filter (in_window tbl (mjd (rec r))) (hits_of search valid r) = [s].
Proof.
  rewrite load_flares_eq. unfold find_matches. simpl. intros Hrun.
  assert (forall r, r ∈ imap read_row csv ->
            matched_sectors h' (rec r)
            = List.filter (in_window tbl (mjd (rec r))) (hits_of search valid r) /\
            (length (matched_sectors h' (rec r)) <= 1)%nat) as Hdone.
  { intros r Hr. destruct (loaded_row _ _ Hr) as (i & c & Hi & Er).
    assert (cell_loc r = Some i) as Hc by (now subst r).
    destruct (find_matches_done tbl search valid _ _ _
                ltac:(rewrite cell_locs_loaded; apply NoDup_seq) Hrun r i Hr Hc)
      as [E Hlen].
    apply lookup_lt_Some in Hi.
    assert (matched_sectors h' (rec r)
            = List.filter (in_window tbl (mjd (rec r))) (hits_of search valid r)) as Hm.
    { unfold matched_sectors. subst r. simpl in *. rewrite E, fresh_lists_lookup.
      destruct (decide (i < length csv)%nat); [reflexivity | lia]. }
    rewrite Hm. split; [reflexivity | exact Hlen]. }
  exists {| label_columns := ["index"];
            rows := imap relabel (List.filter (has_match h') (imap read_row csv)) |}.
  split; [apply spt_tess_candidates_eq, loaded_cells|]. simpl.
  rewrite map_rec_imap_relabel. split.
  - f_equal. apply filter_ext_in. intros r Hr. unfold has_match.
    now rewrite (proj1 (Hdone r (proj2 (list_elem_of_In _ _) Hr))).
  - intros r Hr. apply list_elem_of_lookup in Hr as [i Hi].
    rewrite list_lookup_imap in Hi.
    destruct (List.filter (has_match h') (imap read_row csv) !! i) as [r0|] eqn:E0;
      [|discriminate].
    injection Hi as <-. simpl.
    assert (r0 ∈ List.filter (has_match h') (imap read_row csv)) as Hr0
        by (apply list_elem_of_lookup; now exists i).
    apply list_elem_of_In, filter_In in Hr0 as [Hr0 Hm].
    apply list_elem_of_In in Hr0. destruct (Hdone r0 Hr0) as [E Hlen].
    unfold has_match in Hm. apply Nat.ltb_lt in Hm.
    unfold hits_of in *. simpl. rewrite <- E.
    destruct (matched_sectors h' (rec r0)) as [|s [|s' xs]]; simpl in *; try lia.
    now exists s.
Qed.

Lemma candidates_after_completed_run_witness :
  exists out,
    spt_tess_candidates (<[0%nat := [1%Z]]> (fresh_lists 2))
      (snd (load_flares [flare_at 105; flare_at 130])) = inr out /\
    map rec (rows out)
    = map rec (List.filter
                 (fun r => (0 <? length (List.filter (in_window sectors_1_2 (mjd (rec r)))
                                           (hits_of (always [1; 2]%Z) ∅ r)))%nat)
                 (rows (snd (load_flares [flare_at 105; flare_at 130])))) /\
    forall r, r ∈ rows out ->
      exists s, matched_sectors (<[0%nat := [1%Z]]> (fresh_lists 2)) (rec r) = [s] /\
                List.filter (in_window sectors_1_2 (mjd (rec r)))
                  (hits_of (always [1; 2]%Z) ∅ r) = [s].
Proof.
  apply (candidates_after_completed_run sectors_1_2 (always [1; 2]%Z) ∅
           [flare_at 105; flare_at 130]).
  vm_compute. reflexivity.
Defined.

(** ** The result cell: labels *)

Lemma map_saved_imap_relabel (k : nat) rs :
  map saved (imap (fun i r => relabel (k + i) r) rs) = map (fun r => label r :: saved r) rs.
Proof.
  revert k. induction rs as [|r rs IH]; intros k; [reflexivity|].
  simpl. f_equal. rewrite <- (IH (S k)). f_equal.
  apply imap_ext. intros i x _. simpl. f_equal. lia.
Qed.

Lemma map_label_imap_read_row (k : nat) csv :
  map label (imap (fun i c => read_row (k + i) c) csv) = seq k (length csv).
Proof.
  revert k. induction csv as [|c csv IH]; intros k; [reflexivity|].
  simpl. rewrite Nat.add_0_r. f_equal. rewrite <- (IH (S k)). f_equal.
  apply imap_ext. intros i x _. simpl. f_equal. lia.
Qed.

(** X11.  The result of the result cell is labelled 0, 1, 2, ... and its
    one label column, [index], holds for each kept flare the label it had
    in the catalogue (its position in the file), so the column is strictly
    increasing. *)
Theorem candidates_index_column csv (h : heap) :
  exists out,
    spt_tess_candidates h (snd (load_flares csv)) = inr out /\
    label_columns out = ["index"] /\
    map label (rows out) = seq 0 (length (rows out)) /\
    map saved (rows out)
    = map (fun r => [label r]) (List.filter (has_match h) (rows (snd (load_flares csv)))) /\
    (forall r i c, r ∈ List.filter (has_match h) (rows (snd (load_flares csv))) ->
                   label r = i -> csv !! i = Some c -> r = read_row i c) /\
    StronglySorted lt (map label (List.filter (has_match h) (rows (snd (load_flares csv))))).
Proof.
  rewrite load_flares_eq. simpl.
  exists {| label_columns := ["index"];
            rows := imap relabel (List.filter (has_match h) (imap read_row csv)) |}.
  split; [apply spt_tess_candidates_eq, loaded_cells|]. simpl.
  split; [reflexivity|]. split; [|split; [|split]].
  - rewrite map_label_imap_relabel. now rewrite length_imap.
  - rewrite (map_saved_imap_relabel 0). apply map_ext_in. intros r Hr.
    apply filter_In in Hr as [Hr _]. apply list_elem_of_In, loaded_row in Hr as (i & c & _ & ->).
    reflexivity.
  - intros r i c Hr Hlab Hc. apply list_elem_of_In, filter_In in Hr as [Hr _].
    apply list_elem_of_In, loaded_row in Hr as (i' & c' & Hc' & ->).
    simpl in Hlab. subst i'. congruence.
  - assert (forall (p : Row -> bool) rs, StronglySorted lt (map label rs) ->
              StronglySorted lt (map label (List.filter p rs))) as Hsub.
    { intros p rs. induction rs as [|r rs IH]; simpl; [auto|]. intros Hs.
      apply StronglySorted_inv in Hs as [Hs Hall]. destruct (p r); [|auto].
      simpl. constructor; [auto|].
      rewrite Forall_forall in Hall |- *. intros x Hx. apply Hall.
      apply list_elem_of_In, in_map_iff in Hx as (r' & <- & Hr').
      apply filter_In in Hr' as [Hr' _]. apply list_elem_of_In, in_map_iff. now exists r'. }
    apply Hsub. rewrite (map_label_imap_read_row 0).
    generalize 0%nat. induction (length csv) as [|n IH]; intros k; simpl; constructor.
    + apply IH.
    + apply Forall_forall. intros x Hx. apply elem_of_seq in Hx. lia.
Qed.

(** X12.  When at least one flare has a match, the result cell can be
    applied to its own result once more and not a third time: the second
    application adds the label column [level_0] beside [index], and on the
    frame with both columns [reset_index] raises [ValueError].  When the
    catalogue has flares and none has a match, the second application drops
    the data columns and the third raises [KeyError]. *)
Theorem candidates_third_application_raises csv (h : heap) :
  let df := snd (load_flares csv) in
  ((exists r, r ∈ rows df /\ has_match h r = true) ->
   exists once twice,
     result_cell h (df, true) = inr (once, true) /\
     result_cell h (once, true) = inr (twice, true) /\
     result_cell h (twice, true) = inl ValueError) /\
  ((forall r, r ∈ rows df -> has_match h r = false) -> csv <> [] ->
   exists once twice,
     result_cell h (df, true) = inr (once, true) /\
     result_cell h (once, true) = inr (twice, false) /\
     result_cell h (twice, false) = inl KeyError).
Proof.
  intros df. subst df. rewrite load_flares_eq. simpl.
  set (kept := List.filter (has_match h) (imap read_row csv)).
  assert (Forall (fun r => is_Some (cell_loc r)) kept) as Hl.
  { apply Forall_forall. intros r Hr. apply list_elem_of_In, filter_In in Hr as [Hr _].
    pose proof (loaded_cells csv) as Hall. rewrite Forall_forall in Hall.
    now apply Hall, list_elem_of_In. }
  assert (forall rs, Forall (fun r => is_Some (cell_loc r)) rs ->
            Forall (fun r => is_Some (cell_loc r)) (imap relabel rs)) as Hrel.
  { intros rs.
    exact (Forall_imap_relabel
             (fun f => is_Some (cell_loc {| label := 0; saved := []; rec := f |})) rs). }
  assert (csv <> [] ->
          result_cell h ({| label_columns := []; rows := imap read_row csv |}, true)
          = inr ({| label_columns := ["index"]; rows := imap relabel kept |}, true)) as Hfirst.
  { intros Hne. destruct csv as [|c csv]; [congruence|].
    pose proof (spt_tess_candidates_eq h (imap read_row (c :: csv)) (loaded_cells _)) as Heq.
    unfold result_cell. rewrite Heq. reflexivity. }
  split.
  - intros (r & Hr & Hm).
    assert (r ∈ kept) as Hk by (apply list_elem_of_In, filter_In; split;
                                 [now apply list_elem_of_In | exact Hm]).
    assert (csv <> []) as Hne by (intros ->; inversion Hr).
    assert (exists r1 rs1, imap relabel kept = r1 :: rs1) as (r1 & rs1 & E1).
    { destruct kept as [|k0 ks]; [inversion Hk|]. simpl. eauto. }
    assert (exists r2 rs2, imap relabel (imap relabel kept) = r2 :: rs2) as (r2 & rs2 & E2).
    { rewrite E1. simpl. eauto. }
    exists {| label_columns := ["index"]; rows := imap relabel kept |}.
    exists {| label_columns := ["level_0"; "index"]; rows := imap relabel (imap relabel kept) |}.
    split; [now apply Hfirst|]. split.
    + unfold result_cell. simpl negb. cbv iota. simpl rows. rewrite E1, <- E1.
      rewrite spt_tess_candidates_again; [reflexivity | now apply Hrel |].
      apply (Forall_imap_relabel (fun f => (0 <? length (matched_sectors h f))%nat = true)).
      apply Forall_filter_true.
    + unfold result_cell. simpl negb. cbv iota. simpl rows. rewrite E2, <- E2.
      unfold spt_tess_candidates. simpl rows.
      rewrite sectors_mask_lists by (now apply Hrel, Hrel). reflexivity.
  - intros Hnone Hne.
    assert (kept = []) as Hk.
    { unfold kept. destruct (List.filter (has_match h) (imap read_row csv)) as [|r rs] eqn:E;
        [reflexivity|].
      assert (In r (List.filter (has_match h) (imap read_row csv))) as Hin
          by (rewrite E; now left).
      apply filter_In in Hin as [Hin Hm].
      rewrite (Hnone r (proj2 (list_elem_of_In _ _) Hin)) in Hm. discriminate. }
    exists {| label_columns := ["index"]; rows := imap relabel kept |}.
    exists {| label_columns := ["index"]; rows := [] |}.
    split; [now apply Hfirst|]. rewrite Hk. split; reflexivity.
Qed.

(** ** The candidate filter and the sector table *)

(** X14.  The candidate filter drops no sector that could match a flare
    whose time lies between the times of the first and the last row: a sector
    of the table whose window strictly contains such a time is a candidate.
    (The frame is not sorted, so a flare in the middle of the frame can lie
    outside these bounds; [candidate_sectors_unsorted] is such a frame.) *)
Theorem candidate_filter_keeps_matching_sectors tbl cols r0 rs r w :
  let df := {| label_columns := cols; rows := r0 :: rs |} in
  r ∈ rows df ->
  (mjd (rec r0) <= mjd (rec r))%Q ->
  (mjd (rec r) <= mjd (rec (List.last rs r0)))%Q ->
  w ∈ tbl ->
  (Sector_Start w < mjd (rec r))%Q -> (mjd (rec r) < Sector_End w)%Q ->
  exists candidates,
    candidate_sectors tbl df = inr candidates /\ Sector w ∈ candidates.
Proof.
  intros df _ Hfirst Hlast Hw Hs He.
  exists (valid_sectors tbl (mjd (rec r0), mjd (rec (List.last rs r0)))).
  split; [reflexivity|]. apply valid_sectors_spec. exists w. simpl.
  repeat split; [exact Hw | |].
  - apply Qlt_le_weak. eapply Qlt_le_trans; [exact Hs | exact Hlast].
  - apply Qlt_le_weak. eapply Qle_lt_trans; [exact Hfirst | exact He].
Qed.

Lemma candidate_filter_keeps_matching_sectors_witness :
  exists candidates,
    candidate_sectors sectors_1_2
      {| label_columns := [];
         rows := [read_row 0 (flare_at 101); read_row 1 (flare_at 109);
                  read_row 2 (flare_at 130)] |}
    = inr candidates /\ 2%Z ∈ candidates.
Proof.
  apply (candidate_filter_keeps_matching_sectors sectors_1_2 []
           (read_row 0 (flare_at 101))
           [read_row 1 (flare_at 109); read_row 2 (flare_at 130)]
           (read_row 1 (flare_at 109))
           {| Sector := 2; Sector_Start := 108; Sector_End := 120 |}).
  - right. left.
  - vm_compute. discriminate.
  - vm_compute. discriminate.
  - right. left.
  - vm_compute. reflexivity.
  - vm_compute. reflexivity.
Defined.

Lemma load_sectors_window_witness :
  NoDup (map Sector sectors_1_2) /\
  sector_window sectors_1_2 2 = Some (108, 120)%Q.
Proof.
  apply (load_sectors_window
           [ {| orbit_Sector := Some 2%Z; Start_of_Orbit := Some 108%Q; End_of_Orbit := Some 115%Q |};
             {| orbit_Sector := Some 1%Z; Start_of_Orbit := Some 100%Q; End_of_Orbit := Some 110%Q |};
             {| orbit_Sector := Some 2%Z; Start_of_Orbit := Some 112%Q; End_of_Orbit := Some 120%Q |} ]
           sectors_1_2
           {| Sector := 2; Sector_Start := 108; Sector_End := 120 |}).
  - vm_compute. reflexivity.
  - right. left.
Defined.

(** X17.  The second [dropna] line changes nothing: the table before
    matching is the aggregated table with the rows without a start taken out
    once, the other rows in the order they had. *)
Theorem second_dropna_is_no_op tbl :
  aggregate_sectors tbl = dropna_Sector_Start (groupby_agg tbl) /\
  sublist (aggregate_sectors tbl) (groupby_agg tbl) /\
  dropna_Sector_Start (aggregate_sectors tbl) = aggregate_sectors tbl.
Proof.
  assert (forall l, dropna_Sector_Start (dropna_Sector_Start l) = dropna_Sector_Start l) as Hidem.
  { intros l. unfold dropna_Sector_Start. apply filter_all, Forall_filter_true. }
  unfold aggregate_sectors. rewrite !Hidem. repeat split.
  apply filter_sublist.
Qed.

(** X18.  When every declination lies in [-90, 90] and no product of any
    flare passes the time test (in particular when the archive returns
    nothing), every product naming a sector of the table, the cell gets
    through and leaves the store as it found it, for any frame and any
    store. *)
Theorem matching_cell_without_passing_product tbl search valid df (h : heap) :
  (forall r, r ∈ rows df -> (-90 <= dec (rec r) /\ dec (rec r) <= 90)%Q) ->
  (forall r p, r ∈ rows df -> p ∈ products_of search valid r ->
     exists s, p = Some s /\ (exists w, w ∈ tbl /\ Sector w = s) /\
               in_window tbl (mjd (rec r)) s = false) ->
  matching_cell tbl search valid df h = (h, inr tt).
Proof.
  unfold matching_cell. destruct df as [cols rs]. simpl.
  induction rs as [|r rs IH]; intros Hdec Hall; [reflexivity|].
  rewrite for_each_cons, iterrows_body_eq.
  rewrite (proj2 (dec_in_range_spec r) (Hdec r ltac:(left))).
  assert (forall prods flare, mjd flare = mjd (rec r) ->
            (forall p, p ∈ prods -> p ∈ products_of search valid r) ->
            for_each (check_data_prod tbl) flare prods h = (h, inr flare)) as Hinner.
  { induction prods as [|p prods IHp]; intros flare Hmjd Hsub; [reflexivity|].
    rewrite for_each_cons.
    destruct (Hall r p ltac:(left) (Hsub p ltac:(left))) as (s & -> & Hk & Hout).
    change (check_data_prod tbl flare (Some s)) with (check_product tbl flare s).
    rewrite check_product_cases.
    apply sector_window_Some in Hk as [w ->]. rewrite Hmjd, Hout.
    apply IHp; [exact Hmjd|]. intros p' Hp'. apply Hsub. now right. }
  rewrite (Hinner (products_of search valid r) (rec r) eq_refl ltac:(auto)).
  apply IH.
  - intros r' Hr'. apply Hdec. now right.
  - intros r' p Hr' Hp. apply Hall; [now right | exact Hp].
Qed.

Lemma matching_cell_without_passing_product_witness :
  matching_cell sectors_1_2 (always_texts [Some 1; Some 2]%Z) ∅
    {| label_columns := [];
       rows := [read_row 0 (flare_at 130); read_row 1 (flare_dec_at (-90) 99)] |}
    (fresh_lists 2)
  = (fresh_lists 2, inr tt).
Proof.
  apply (matching_cell_without_passing_product sectors_1_2
           (always_texts [Some 1; Some 2]%Z) ∅).
  - intros r Hr. simpl in Hr.
    repeat (apply elem_of_cons in Hr as [->|Hr]); [| |inversion Hr];
      split; vm_compute; discriminate.
  - intros r p Hr Hp. simpl in Hr. unfold products_of, always_texts in Hp.
    repeat (apply elem_of_cons in Hr as [->|Hr]); [| |inversion Hr];
      (repeat (apply elem_of_cons in Hp as [->|Hp]); [| |inversion Hp]);
      (eexists; split; [reflexivity|]; split; [|vm_compute; reflexivity]).
    + exists {| Sector := 1; Sector_Start := 100; Sector_End := 110 |}. split; [left | reflexivity].
    + exists {| Sector := 2; Sector_Start := 108; Sector_End := 120 |}.
      split; [right; left | reflexivity].
    + exists {| Sector := 1; Sector_Start := 100; Sector_End := 110 |}. split; [left | reflexivity].
    + exists {| Sector := 2; Sector_Start := 108; Sector_End := 120 |}.
      split; [right; left | reflexivity].
Defined.

(** X19.  A line of the orbit file without a sector number has no part in
    the aggregated table: taking such lines out of the file gives the same
    table. *)
Theorem groupby_agg_ignores_lines_without_sector tbl :
  groupby_agg (List.filter (fun o => bool_decide (is_Some (orbit_Sector o))) tbl)
  = groupby_agg tbl.
Proof.
  set (keyed := List.filter (fun o => bool_decide (is_Some (orbit_Sector o))) tbl).
  assert (omap orbit_Sector keyed = omap orbit_Sector tbl) as Hkeys.
  { subst keyed. induction tbl as [|o tbl IH]; [reflexivity|]. cbn [List.filter omap list_omap].
    destruct (bool_decide_reflect (is_Some (orbit_Sector o))) as [[k E]|Hno].
    - cbn [omap list_omap]. rewrite E. now rewrite IH.
    - destruct (orbit_Sector o) as [k|]; [exfalso; apply Hno; now exists k | exact IH]. }
  assert (forall k, group k keyed = group k tbl) as Hgroup.
  { clear Hkeys. intros k. subst keyed. unfold group.
    induction tbl as [|o tbl IH]; [reflexivity|].
    cbn [List.filter].
    destruct (bool_decide_reflect (is_Some (orbit_Sector o))) as [[k' E]|Hno].
    - cbn [List.filter]. now rewrite IH.
    - rewrite IH. rewrite bool_decide_eq_false_2; [reflexivity|].
      intros E. apply Hno. now exists k. }
  unfold groupby_agg, group_keys. rewrite Hkeys. apply map_ext. intros k.
  now rewrite Hgroup.
Qed.
